(** * gemmi: searching for links based on the _chem_link table (linkhunt.hpp)

    A shallow embedding of [gemmi::LinkHunt] and of the functions it
    calls, followed by the properties of the link search; and of the two
    free functions of gz.hpp that read gzipped files.

    Conventions of the embedding.
    - [double] and [float] values are idealised as exact rationals ([Q]):
      comparisons and products are exact, rounding is outside the model.
      [std::sqrt] is not a rational function: its result, the
      [bond_length] of a record, is a real number ([R]). It is a parameter
      [fsqrt] of the development; where its value matters it is taken to
      be the square root of the real numbers.
    - [int] indices and counters are modelled without overflow ([nat] for
      the positions in a vector, [Z] for counters): the vectors they index
      or count are far shorter than 2^31.
    - Pointers into the model ([Chain*], [Residue*], [Atom*]) are the index
      paths of what they point to; a [const ChemLink*] is the rule itself.
    - [std::multimap] is an association list in insertion order (equal keys
      keep their insertion order, as C++11 guarantees); [std::map] and
      [std::unordered_map] with string keys are [gmap string].
    - In gz.hpp a file, and the stream that zlib decompresses, are the
      lists of their bytes; [int] is 32 bits wide in two's complement,
      [long] and [size_t] are 64 bits wide. *)

From stdpp Require Import base list gmap strings.
From Stdlib Require Import Ascii Reals Lra QArith Qreals Lqa.

Local Open Scope string_scope.

(** ** Numbers *)

(** [a > b] on doubles. *)
Definition Qgtb (a b : Q) : bool := negb (Qle_bool a b).

(** [a < b] on doubles. *)
Definition Qltb (a b : Q) : bool := negb (Qle_bool b a).

(** [sq(x)] of gemmi's math utilities. *)
Definition sq (x : Q) : Q := (x * x)%Q.

(** [std::max(a, b)]: [(a < b) ? b : a]. *)
Definition std_max (a b : Q) : Q := if Qltb a b then b else a.

(** ** Data model *)

Record Position := mkPosition { px : Q; py : Q; pz : Q }.

(** Modelled from the spec: the squared distance of two positions, whose
    header is not among the sources: the sum of the squared coordinate
    differences. *)
Definition squared_distance (a b : Position) : Q :=
  (sq (px a - px b) + sq (py a - py b) + sq (pz a - pz b))%Q.

(** Modelled from the spec: the chiral volume of calculate.hpp, which is
    not among the sources: the signed scalar triple product of
    (p2-p1, p3-p1, p4-p1). *)
Definition calculate_chiral_volume (p1 p2 p3 p4 : Position) : Q :=
  (let ax := px p2 - px p1 in let ay := py p2 - py p1 in
   let az := pz p2 - pz p1 in
   let bx := px p3 - px p1 in let by_ := py p3 - py p1 in
   let bz := pz p3 - pz p1 in
   let cx := px p4 - px p1 in let cy := py p4 - py p1 in
   let cz := pz p4 - pz p1 in
   ax * (by_ * cz - bz * cy) + ay * (bz * cx - bx * cz)
   + az * (bx * cy - by_ * cx))%Q.

(** [enum El]: the ordinal of the element. *)
Definition El := nat.

Bind Scope nat_scope with El.

(** [ChemLink::Group]. *)
Inductive Group := Peptide | DnaRna | Pyranose | Null.

Definition Group_eqb (a b : Group) : bool :=
  match a, b with
  | Peptide, Peptide | DnaRna, DnaRna | Pyranose, Pyranose | Null, Null => true
  | _, _ => false
  end.

(** [ChemLink::Side]. *)
Record Side := mkSide { comp : string; group : Group }.

(** [Restraints::AtomId]. *)
Record AtomId := mkAtomId { atomid_comp : Z; atom : string }.

(** [Restraints::Bond]: the two endpoints and the ideal length. *)
Record Bond := mkBond { id1 : AtomId; id2 : AtomId; value : Q }.

Inductive ChiralityType := Positive | Negative | Both.

(** [Restraints::Chirality]: four atom references and the expected sign. *)
Record Chirality := mkChirality {
  id_ctr : AtomId; chir_id1 : AtomId; chir_id2 : AtomId; chir_id3 : AtomId;
  chir : ChiralityType }.

(** [Restraints]: the bonds and the chiralities are all the search reads. *)
Record Restraints := mkRestraints { bonds : list Bond; chirs : list Chirality }.

Record ChemLink := mkChemLink {
  id : string; side1 : Side; side2 : Side; rt : Restraints }.

(** What [index_chem_links] asks of a [ResidueInfo]. *)
Record ResidueInfo := mkResidueInfo {
  is_amino_acid : bool; is_nucleic_acid : bool; kind_is_PYR : bool }.

(** [MonLib]: both maps in their iteration order. *)
Record MonLib := mkMonLib {
  monlib_links : list (string * ChemLink);
  residue_infos : list (string * ResidueInfo) }.

Record Atom := mkAtom {
  name : string; altloc : ascii; element : El; pos : Position }.

Record Residue := mkResidue { res_name : string; atoms : list Atom }.

Record Chain := mkChain { chain_name : string; residues : list Residue }.

(** [AtomAddress]: read only by [atom_matches]. *)
Record AtomAddress := mkAtomAddress {
  addr_chain : string; addr_res : string; addr_seq : Z;
  addr_atom : string; addr_altloc : ascii }.

Record Connection := mkConnection {
  conn_atom0 : AtomAddress; conn_atom1 : AtomAddress }.

Record Model := mkModel { chains : list Chain; connections : list Connection }.

(** Modelled from the spec: the unit cell, which is not among the sources:
    a finite list of operations, each producing an image of the asymmetric
    unit; image 0 is the asymmetric unit itself, image [k+1] is produced
    by the [k]-th operation. *)
Record UnitCell := mkUnitCell { images : list (Position -> Position) }.

Record Structure := mkStructure { models : list Model; cell : UnitCell }.

(** [CRA]: chain, residue and atom pointers, as the index path of the atom. *)
Record CRA := mkCRA { cra_chain : nat; cra_residue : nat; cra_atom : nat }.

(** Modelled from the spec: [SubCells::Mark] (SpatialMark): the atom by
    its indices, the symmetry image that produced it and the position
    after the transform. *)
Record Mark := mkMark {
  mark_pos : Position; mark_altloc : ascii; mark_element : El;
  image_idx : nat; chain_idx : nat; residue_idx : nat; atom_idx : nat }.

(** Modelled from the spec: the spatial index of subcells.hpp, which is not
    among the sources: the marks it holds, in the order a query enumerates
    them, and the cutoff radius it was built with. *)
Record SubCells := mkSubCells { sc_cutoff : Q; sc_cell : UnitCell; sc_marks : list Mark }.

(** [LinkHunt::Match]. [cra1] and [cra2] are [None] in a default-constructed
    match; [conn] is the position of the connection in the model. *)
Record Match := mkMatch {
  chem_link : option ChemLink;
  chem_link_count : Z;
  cra1 : option CRA;
  cra2 : option CRA;
  same_asu : bool;
  bond_length : R;
  conn : option nat }.

(** The data members of [LinkHunt]. *)
Record LinkHunt := mkLinkHunt {
  global_max_dist : Q;
  links : list ((string * string) * ChemLink);
  res_group : gmap string Group;
  max_dist_per_atom : gmap string Q }.

(** A freshly constructed [LinkHunt]: [global_max_dist = 2.34] (ZN-CYS). *)
Definition LinkHunt_init : LinkHunt := mkLinkHunt 2.34 [] ∅ ∅.

(** What [std::out_of_range] of [models.at(0)] becomes. *)
Inductive error := out_of_range.

(** ** Building the index of the dictionary *)

Definition blacklist : list string :=
  ["TRANS"; "PTRANS"; "NMTRANS"; "CIS"; "PCIS"; "NMCIS"; "p"; "SS"].

(** [in_vector(x, v)]. *)
Definition in_vector (x : string) (v : list string) : bool :=
  existsb (String.eqb x) v.

(** Modelled from the spec: [Restraints::lexicographic_str], of monlib.hpp
    which is not among the sources: the lexicographically ordered pair of
    two atom names. *)
Definition lexicographic_str (name1 name2 : string) : string * string :=
  if String.ltb name1 name2 then (name1, name2) else (name2, name1).

Definition bond_lexicographic_str (b : Bond) : string * string :=
  lexicographic_str (atom (id1 b)) (atom (id2 b)).

(** The line written to stderr for a rule with more than one bond, without
    its end of line. *)
Definition note_first_bond (link : ChemLink) : string :=
  "Note: considering only the first bond in " +:+ id link.

(** [max_dist_per_atom.emplace(atom_name, v)], then the update of a smaller
    value that was already there. *)
Definition emplace_max (m : gmap string Q) (atom_name : string) (v : Q)
  : gmap string Q :=
  match m !! atom_name with
  | None => <[atom_name := v]> m
  | Some old => if Qltb old v then <[atom_name := v]> m else m
  end.

(** The part of the loop body of [index_chem_links] after both [continue]s. *)
Definition retain_link (lh : LinkHunt) (link : ChemLink) (bond : Bond)
  : LinkHunt :=
  {| global_max_dist :=
       if Qgtb (value bond) (global_max_dist lh) then value bond
       else global_max_dist lh;
     links := (links lh ++ [(bond_lexicographic_str bond, link)])%list;
     res_group := res_group lh;
     max_dist_per_atom :=
       fold_left (fun m atom_name => emplace_max m atom_name (value bond))
                 [atom (id1 bond); atom (id1 bond)] (max_dist_per_atom lh) |}.

(** One iteration of the first loop of [index_chem_links]; the state is the
    [LinkHunt] and the lines written to stderr so far. *)
Definition index_link (s : LinkHunt * list string) (link : ChemLink)
  : LinkHunt * list string :=
  let (lh, err) := s in
  match bonds (rt link) with
  | [] => (lh, err)
  | bond :: more =>
      let err' := match more with
                  | [] => err
                  | _ :: _ => (err ++ [note_first_bond link])%list
                  end in
      if String.eqb (comp (side1 link)) EmptyString
         && String.eqb (comp (side2 link)) EmptyString
      then
        if Group_eqb (group (side1 link)) Null
           || Group_eqb (group (side2 link)) Null
           || in_vector (id link) blacklist
        then (lh, err')
        else (retain_link lh link bond, err')
      else (retain_link lh link bond, err')
  end.

(** One iteration of the second loop: the group of a residue name;
    [emplace] keeps an entry that is already there. *)
Definition index_residue_info (lh : LinkHunt) (ri : string * ResidueInfo)
  : LinkHunt :=
  let g :=
    if is_amino_acid ri.2 then Peptide
    else if is_nucleic_acid ri.2 then DnaRna
    else if kind_is_PYR ri.2 then Pyranose
    else Null in
  {| global_max_dist := global_max_dist lh;
     links := links lh;
     res_group := match res_group lh !! ri.1 with
                  | None => <[ri.1 := g]> (res_group lh)
                  | Some _ => res_group lh
                  end;
     max_dist_per_atom := max_dist_per_atom lh |}.

(** [LinkHunt::index_chem_links]: the [LinkHunt] after the call and the
    lines written to stderr. *)
Definition index_chem_links (monlib : MonLib) (lh : LinkHunt)
  : LinkHunt * list string :=
  let (lh1, err) := fold_left index_link (map snd (monlib_links monlib)) (lh, []) in
  (fold_left index_residue_info (residue_infos monlib) lh1, err).

(** [LinkHunt::match_link_side]. *)
Definition match_link_side (lh : LinkHunt) (side : Side) (resname : string)
  : bool :=
  if negb (String.eqb (comp side) EmptyString) then String.eqb (comp side) resname
  else if Group_eqb (group side) Null then false
  else match res_group lh !! resname with
       | Some g => Group_eqb g (group side)
       | None => false
       end.

(** ** The spatial index *)

(** A [char] that is zero: no alternate location. *)
Definition is_nul (c : ascii) : bool := Ascii.eqb c Ascii.zero.

(** Modelled from the spec: the altloc filter of a neighbour query: a
    candidate is skipped when both codes are non-empty and differ. *)
Definition is_same_conformer (alt1 alt2 : ascii) : bool :=
  is_nul alt1 || is_nul alt2 || Ascii.eqb alt1 alt2.

(** [for (int i = i0; i != (int) v.size(); ++i) body(i, v[i])], collecting
    what the bodies append to a vector. *)
Fixpoint for_index {A B : Type} (i : nat) (v : list A)
  (body : nat -> A -> list B) : list B :=
  match v with
  | [] => []
  | x :: v' => (body i x ++ for_index (S i) v' body)%list
  end.

(** Modelled from the spec: the marks of the symmetry images of one atom,
    image [k] first. *)
Fixpoint image_marks (k : nat) (ops : list (Position -> Position))
  (n_ch n_res n_atom : nat) (a : Atom) : list Mark :=
  match ops with
  | [] => []
  | op :: ops' =>
      mkMark (op (pos a)) (altloc a) (element a) k n_ch n_res n_atom
      :: image_marks (S k) ops' n_ch n_res n_atom a
  end.

(** Modelled from the spec: the marks of one atom: the atom itself (image
    0) and each of its symmetry images. *)
Definition atom_marks (c : UnitCell) (n_ch n_res n_atom : nat) (a : Atom)
  : list Mark :=
  mkMark (pos a) (altloc a) (element a) 0 n_ch n_res n_atom
  :: image_marks 1 (images c) n_ch n_res n_atom a.

(** Modelled from the spec: the constructor [SubCells(model, cell, cutoff)]. *)
Definition SubCells_new (model : Model) (c : UnitCell) (cutoff : Q) : SubCells :=
  mkSubCells cutoff c [].

(** Modelled from the spec: [SubCells::populate]: every atom of the model
    is inserted with every one of its symmetry images. *)
Definition populate (sc : SubCells) (model : Model) : SubCells :=
  mkSubCells (sc_cutoff sc) (sc_cell sc)
    (sc_marks sc ++
     for_index 0 (chains model) (fun n_ch chain =>
       for_index 0 (residues chain) (fun n_res res =>
         for_index 0 (atoms res) (fun n_atom a =>
           atom_marks (sc_cell sc) n_ch n_res n_atom a))))%list.

(** Modelled from the spec: [SubCells::for_each]: the marks within [radius]
    of [p] that pass the altloc filter, each with its exact squared
    distance to [p]; the visitor is called on each of them in turn. *)
Definition for_each (sc : SubCells) (p : Position) (alt : ascii) (radius : Q)
  : list (Mark * Q) :=
  omap (fun m =>
          let d := squared_distance p (mark_pos m) in
          if Qle_bool d (sq radius) && is_same_conformer alt (mark_altloc m)
          then Some (m, d) else None)
       (sc_marks sc).

(** [Mark::to_cra(model)]. *)
Definition to_cra (m : Mark) : CRA :=
  mkCRA (chain_idx m) (residue_idx m) (atom_idx m).

(** [*cra.residue] and [*cra.atom] in a model. *)
Definition cra_residue_of (model : Model) (c : CRA) : option Residue :=
  match chains model !! cra_chain c with
  | Some ch => residues ch !! cra_residue c
  | None => None
  end.

Definition cra_atom_of (model : Model) (c : CRA) : option Atom :=
  match cra_residue_of model c with
  | Some r => atoms r !! cra_atom c
  | None => None
  end.

(** Modelled from the spec: [Restraints::Chirality::is_wrong]: the sign of
    the volume contradicts a definite expected sign; a zero volume never
    does. *)
Definition is_wrong (c : Chirality) (volume : Q) : bool :=
  match chir c with
  | Positive => Qltb volume 0
  | Negative => Qgtb volume 0
  | Both => false
  end.

(** [multimap::equal_range(key)]: the rules stored under [key], in the
    order of their insertion. *)
Definition equal_range (l : list ((string * string) * ChemLink))
  (key : string * string) : list ChemLink :=
  map snd (filter (fun e => e.1 = key) l).

(** ** The three rejections at the head of the visitor *)

(** "do not consider connections inside a residue" *)
Definition inside_residue (n_ch n_res : nat) (m : Mark) : bool :=
  Nat.eqb (image_idx m) 0 && Nat.eqb (chain_idx m) n_ch
  && Nat.eqb (residue_idx m) n_res.

(** "avoid reporting connections twice (A-B and B-A)" *)
Definition reported_twice (n_ch n_res n_atom : nat) (m : Mark) : bool :=
  Nat.ltb (chain_idx m) n_ch
  || (Nat.eqb (chain_idx m) n_ch
      && (Nat.ltb (residue_idx m) n_res
          || (Nat.eqb (residue_idx m) n_res && Nat.ltb (atom_idx m) n_atom))).

(** "atom can be linked with its image, but if the image is too close the
    atom is likely on special position" *)
Definition image_too_close (n_ch n_res n_atom : nat) (m : Mark) (dist_sq : Q)
  : bool :=
  Nat.eqb (chain_idx m) n_ch && Nat.eqb (residue_idx m) n_res
  && Nat.eqb (atom_idx m) n_atom && Qltb dist_sq (sq 0.8).

(** A default-constructed [Match]. *)
Definition Match_default : Match := mkMatch None 0 None None false 0 None.

(** The record that is pushed: [same_asu] and [bond_length] are set last. *)
Definition set_conn (mt : Match) (c : option nat) : Match :=
  mkMatch (chem_link mt) (chem_link_count mt) (cra1 mt) (cra2 mt)
          (same_asu mt) (bond_length mt) c.

(** ** The vocabulary of the properties *)

#[global] Instance Group_eq_dec : EqDecision Group.
Proof. solve_decision. Defined.

(** The generic conformational link names that never drive the search. *)
Definition generic_link_names : list string :=
  ["TRANS"; "PTRANS"; "NMTRANS"; "CIS"; "PCIS"; "NMCIS"; "p"; "SS"].

(** Both sides name no explicit residue, and a side has no group or the
    rule is one of the generic links. *)
Definition too_generic (link : ChemLink) : Prop :=
  (comp (side1 link) = EmptyString ∧ comp (side2 link) = EmptyString)
  ∧ (group (side1 link) = Null ∨ group (side2 link) = Null
     ∨ id link ∈ generic_link_names).

(** A rule that the index of the dictionary keeps. *)
Definition retained (link : ChemLink) : Prop :=
  (0 < length (bonds (rt link)))%nat ∧ ¬ too_generic link.

(** A rule with more than one bond. *)
Definition multi_bond (link : ChemLink) : Prop :=
  (1 < length (bonds (rt link)))%nat.

#[global] Instance too_generic_dec link : Decision (too_generic link).
Proof. unfold too_generic. apply _. Defined.

#[global] Instance retained_dec link : Decision (retained link).
Proof. unfold retained. apply _. Defined.

#[global] Instance multi_bond_dec link : Decision (multi_bond link).
Proof. unfold multi_bond. apply _. Defined.

(** The entry of [links] for a rule: its first bond gives the key. *)
Definition link_entry (link : ChemLink) : option ((string * string) * ChemLink) :=
  match bonds (rt link) with
  | b :: _ => Some (bond_lexicographic_str b, link)
  | [] => None
  end.

(** The length of the first bond of a rule. *)
Definition first_bond_value (link : ChemLink) : Q :=
  match bonds (rt link) with b :: _ => value b | [] => 0 end.

(** The first endpoint of the first bond of a rule. *)
Definition first_bond_id1 (link : ChemLink) : option string :=
  match bonds (rt link) with b :: _ => Some (atom (id1 b)) | [] => None end.

(** The second endpoint of the first bond of a rule. *)
Definition first_bond_id2 (link : ChemLink) : option string :=
  match bonds (rt link) with b :: _ => Some (atom (id2 b)) | [] => None end.

(** The three nested loops over the atoms of a model, for any body. *)
Definition scan3 {B : Type} (model : Model)
  (f : nat -> nat -> nat -> Residue -> Atom -> list B) : list B :=
  for_index 0 (chains model) (fun n_ch chain =>
    for_index 0 (residues chain) (fun n_res res =>
      for_index 0 (atoms res) (fun n_atom atm => f n_ch n_res n_atom res atm))).

(** The lexicographic order of index triples. *)
Definition CRA_ltb (a b : CRA) : bool :=
  Nat.ltb (cra_chain a) (cra_chain b)
  || (Nat.eqb (cra_chain a) (cra_chain b)
      && (Nat.ltb (cra_residue a) (cra_residue b)
          || (Nat.eqb (cra_residue a) (cra_residue b)
              && Nat.ltb (cra_atom a) (cra_atom b)))).

(** The two atoms of a record are [a] and [b], in either order. *)
Definition endpoints (r : Match) (a b : CRA) : Prop :=
  (cra1 r = Some a ∧ cra2 r = Some b) ∨ (cra1 r = Some b ∧ cra2 r = Some a).

#[global] Instance CRA_eq_dec : EqDecision CRA.
Proof. solve_decision. Defined.

#[global] Instance endpoints_dec r a b : Decision (endpoints r a b).
Proof. unfold endpoints. apply _. Defined.

(** ** Concrete data for the examples *)

(** [std::sqrt] as the square root of the real numbers. *)
Definition ex_sqrt (x : Q) : R := sqrt (Q2R x).

(** Covalent radii of zinc (30), sulfur (16) and carbon (anything else). *)
Definition ex_covalent_r (e : El) : Q :=
  if Nat.eqb e 30 then 1.22 else if Nat.eqb e 16 then 1.05 else 0.76.

(** An atom reference resolved by name, in the first residue unless its
    component is 2. *)
Definition ex_get_from (i : AtomId) (res1 res2 : Residue) (alt : ascii)
  : option Atom :=
  List.find (fun a => String.eqb (name a) (atom i))
            (atoms (if Z.eqb (atomid_comp i) 2 then res2 else res1)).

(** A model without recorded connections: no address matches. *)
Definition ex_atom_matches (model : Model) (c : CRA) (a : AtomAddress) : bool :=
  false.

Definition bond_ZN_SG : Bond := mkBond (mkAtomId 1 "ZN") (mkAtomId 2 "SG") 2.3.

Definition link_ZN_CYS : ChemLink :=
  mkChemLink "ZN-CYS" (mkSide "ZN" Null) (mkSide "CYS" Null)
             (mkRestraints [bond_ZN_SG] []).

(** The same bond written from the other side. *)
Definition link_CYS_ZN : ChemLink :=
  mkChemLink "CYS-ZN" (mkSide "CYS" Null) (mkSide "ZN" Null)
             (mkRestraints [mkBond (mkAtomId 1 "SG") (mkAtomId 2 "ZN") 2.3] []).

Definition chir_SG (sign : ChiralityType) : Chirality :=
  mkChirality (mkAtomId 2 "SG") (mkAtomId 1 "ZN") (mkAtomId 2 "CB")
              (mkAtomId 2 "CA") sign.

(** The rule with a chirality at SG that the example model contradicts. *)
Definition link_ZN_CYS_chir : ChemLink :=
  mkChemLink "ZN-CYS-chir" (mkSide "ZN" Null) (mkSide "CYS" Null)
             (mkRestraints [bond_ZN_SG] [chir_SG Both; chir_SG Positive]).

Definition monlib_zn : MonLib := mkMonLib [("ZN-CYS", link_ZN_CYS)] [].

Definition monlib_three : MonLib :=
  mkMonLib [("CYS-ZN", link_CYS_ZN); ("ZN-CYS", link_ZN_CYS);
            ("ZN-CYS-chir", link_ZN_CYS_chir)] [].

Definition at_zn : Atom := mkAtom "ZN" Ascii.zero 30 (mkPosition 0 0 0).
Definition at_sg : Atom := mkAtom "SG" Ascii.zero 16 (mkPosition 1.5 0 0).
Definition at_cb : Atom := mkAtom "CB" Ascii.zero 6 (mkPosition 1.5 1.5 0).
Definition at_ca : Atom := mkAtom "CA" Ascii.zero 6 (mkPosition 1.5 1.5 1.5).

Definition res_zn : Residue := mkResidue "ZN" [at_zn].
Definition res_cys : Residue := mkResidue "CYS" [at_sg; at_cb; at_ca].

Definition model_zn : Model := mkModel [mkChain "A" [res_zn; res_cys]] [].

(** The two-fold rotation about the z axis, and the lattice translation by
    2 along x. *)
Definition twofold_z (p : Position) : Position :=
  mkPosition (- px p) (- py p) (pz p).

Definition shift_x (p : Position) : Position :=
  mkPosition (px p + 2) (py p) (pz p).

Definition st_p1 : Structure := mkStructure [model_zn] (mkUnitCell []).
Definition st_twofold : Structure :=
  mkStructure [model_zn] (mkUnitCell [twofold_z]).
Definition st_shift : Structure := mkStructure [model_zn] (mkUnitCell [shift_x]).
Definition st_no_model : Structure := mkStructure [] (mkUnitCell []).

Definition lh_zn : LinkHunt := (index_chem_links monlib_zn LinkHunt_init).1.
Definition lh_three : LinkHunt := (index_chem_links monlib_three LinkHunt_init).1.

Definition cra_zn : CRA := mkCRA 0 0 0.
Definition cra_sg : CRA := mkCRA 0 1 0.

(** The mark of SG in the asymmetric unit, and a mark of the same residue
    as ZN that is another atom. *)
Definition mark_sg : Mark := mkMark (pos at_sg) Ascii.zero 16 0 0 1 0.
Definition mark_zn_image : Mark := mkMark (mkPosition 2 0 0) Ascii.zero 30 1 0 0 0.
Definition mark_other_atom : Mark := mkMark (mkPosition 1 0 0) Ascii.zero 8 0 0 0 1.

(** * gz.hpp: reading gzipped files *)

(** The four [fail(...)] of [estimate_uncompressed_size]. *)
Inductive gz_failure :=
  | fseek_failed | ftell_failed | fread_failed | size_undetermined.

(** An [unsigned char] as an integer. *)
Definition byte_val (b : Byte.byte) : Z := Z.of_N (Byte.to_N b).

(** The value of an [int] expression: 32 bits, two's complement. *)
Definition to_int (z : Z) : Z := ((z + 2 ^ 31) mod 2 ^ 32 - 2 ^ 31)%Z.

(** The conversion to [size_t]: 64 bits, unsigned. *)
Definition to_size_t (z : Z) : Z := (z mod 2 ^ 64)%Z.

(** [(buf[3] << 24) | (buf[2] << 16) | (buf[1] << 8) | buf[0]], computed in
    [int] and converted to [size_t]. *)
Definition orig_size_of (b0 b1 b2 b3 : Byte.byte) : Z :=
  to_size_t
    (Z.lor (Z.lor (Z.lor (to_int (Z.shiftl (byte_val b3) 24))
                         (to_int (Z.shiftl (byte_val b2) 16)))
                  (to_int (Z.shiftl (byte_val b1) 8)))
           (byte_val b0)).

(** The last four bytes of a file read as a little-endian number: the
    field in which gzip stores the uncompressed size modulo 2^32. *)
Definition le32 (b0 b1 b2 b3 : Byte.byte) : Z :=
  (byte_val b0 + 2 ^ 8 * byte_val b1 + 2 ^ 16 * byte_val b2
   + 2 ^ 24 * byte_val b3)%Z.

(** [estimate_uncompressed_size], on the bytes of the file that the path
    opens. [fseek] to 4 bytes before the end fails on a shorter file;
    [ftell] then gives the position, and the last 4 bytes are read. *)
Definition estimate_uncompressed_size (file : list Byte.byte)
  : gz_failure + Z :=
  let size := Z.of_nat (length file) in
  if (size <? 4)%Z then inl fseek_failed
  else
    let pos := (size - 4)%Z in
    if (pos <=? 0)%Z then inl ftell_failed
    else
      let gzipped_size := to_size_t (pos + 4) in
      match drop (Z.to_nat pos) file with
      | [b0; b1; b2; b3] =>
          let orig_size := orig_size_of b0 b1 b2 b3 in
          if (orig_size <? gzipped_size)%Z
             || (to_size_t (10 * gzipped_size) <? orig_size)%Z
          then inl size_undetermined
          else inr orig_size
      | _ => inl fread_failed
      end.

(** The end of line and the zero character. *)
Definition is_newline (c : Byte.byte) : bool := Byte.eqb c Byte.x0a.
Definition is_zero_char (c : Byte.byte) : bool := Byte.eqb c Byte.x00.

(** What [gzgets] copies: bytes of the stream until [n] of them are read or
    an end of line is read and copied; the bytes read and the stream after
    them. *)
Fixpoint gzgets_copy (n : nat) (f : list Byte.byte)
  : list Byte.byte * list Byte.byte :=
  match n, f with
  | S n', c :: f' =>
      if is_newline c then ([c], f')
      else let (l, r) := gzgets_copy n' f' in (c :: l, r)
  | _, _ => ([], f)
  end.

(** zlib's [gzgets(f, line, size)] on a stream given by the bytes still to
    come: [None] is the null pointer, returned when [size < 1] or nothing
    is read. *)
Definition gzgets (f : list Byte.byte) (size : Z)
  : option (list Byte.byte) * list Byte.byte :=
  if (size <? 1)%Z then (None, f)
  else
    match gzgets_copy (Z.to_nat (size - 1)) f with
    | ([], r) => (None, r)
    | (l, r) => (Some l, r)
    end.

(** [std::strlen] of the buffer holding [l] and its terminating zero. *)
Fixpoint strlen (l : list Byte.byte) : nat :=
  match l with
  | [] => 0
  | c :: l' => if is_zero_char c then 0 else S (strlen l')
  end.

(** The loop [for (c = gzgetc(f); c != 0 && c != -1 && c != '\n';
    c = gzgetc(f))]: the stream after it. *)
Fixpoint discard_rest (f : list Byte.byte) : list Byte.byte :=
  match f with
  | [] => []
  | c :: f' =>
      if is_zero_char c || is_newline c then f' else discard_rest f'
  end.

(** [copy_line_from_stream(line, size, f)]: the length returned, the bytes
    put in [line] before the terminating zero ([None] when [line] is left
    untouched) and the stream after the call. *)
Definition copy_line_from_stream (size : Z) (f : list Byte.byte)
  : nat * option (list Byte.byte) * list Byte.byte :=
  match gzgets f size with
  | (None, r) => (0%nat, None, r)
  | (Some l, r) =>
      let len := strlen l in
      let r' :=
        if (0 <? len)%nat
           && negb (is_newline (nth (len - 1) l Byte.x00))
        then discard_rest r else r in
      (len, Some l, r')
  end.

(** The first line of a text, with its end of line if it has one, and the
    text after it. *)
Fixpoint split_line (f : list Byte.byte) : list Byte.byte * list Byte.byte :=
  match f with
  | [] => ([], [])
  | c :: f' =>
      if is_newline c then ([c], f')
      else let (l, r) := split_line f' in (c :: l, r)
  end.

(** The lines of a text, each with its end of line, the last one possibly
    without: at most [fuel] of them. *)
Fixpoint lines_upto (fuel : nat) (f : list Byte.byte)
  : list (list Byte.byte) :=
  match fuel, f with
  | S fuel', _ :: _ =>
      (split_line f).1 :: lines_upto fuel' (split_line f).2
  | _, _ => []
  end.

Definition lines (f : list Byte.byte) : list (list Byte.byte) :=
  lines_upto (length f) f.

(** A reader that calls [copy_line_from_stream] until it returns 0, at most
    [fuel] times: the lines it gets. *)
Fixpoint read_lines (fuel : nat) (size : Z) (f : list Byte.byte)
  : list (list Byte.byte) :=
  match fuel with
  | O => []
  | S fuel' =>
      match copy_line_from_stream size f with
      | (O, _, _) => []
      | (S _, Some l, r) => l :: read_lines fuel' size r
      | (S _, None, r) => []
      end
  end.


(** ** linkhunt.hpp: the vocabulary of the further properties *)

(** The group that the second loop of [index_chem_links] records for a
    residue of the dictionary: the first of amino acid, nucleic acid and
    pyranose that applies. *)
Definition residue_group (ri : ResidueInfo) : Group :=
  if is_amino_acid ri then Peptide
  else if is_nucleic_acid ri then DnaRna
  else if kind_is_PYR ri then Pyranose
  else Null.

(** The rules of a dictionary that are retained and whose first bond starts
    at the atom name [k]. *)
Definition starts_at (k : string) (link : ChemLink) : Prop :=
  retained link ∧ first_bond_id1 link = Some k.

#[global] Instance starts_at_dec k link : Decision (starts_at k link).
Proof. unfold starts_at. apply _. Defined.

(** A value of an optional entry, as a list. *)
Definition entry_values (o : option Q) : list Q :=
  match o with Some v => [v] | None => [] end.

(** ** Concrete data for the examples of gz.hpp *)

(** The text of the two lines "ab" and "cd", the second without an end of
    line. *)
Definition ex_text : list Byte.byte :=
  [Byte.x61; Byte.x62; Byte.x0a; Byte.x63; Byte.x64].

(** The first bytes of a gzip file of 10 bytes. *)
Definition ex_gz_head : list Byte.byte :=
  [Byte.x1f; Byte.x8b; Byte.x08; Byte.x00; Byte.x00; Byte.x00].

Section LinkSearch.

(** [std::sqrt]. *)
Variable fsqrt : Q -> R.

(** [Element::covalent_r()]: the table of elem.hpp is not among the sources. *)
Variable covalent_r : El -> Q.

(** [AtomId::get_from(res1, res2, altloc)] of monlib.hpp: the atom that an
    atom reference of a rule designates in a pair of residues, if any. *)
Variable get_from : AtomId -> Residue -> Residue -> ascii -> option Atom.

(** [atom_matches(cra, address)] of model.hpp. *)
Variable atom_matches : Model -> CRA -> AtomAddress -> bool.

Fixpoint find_connection_from (i : nat) (cs : list Connection) (model : Model)
  (c1 c2 : CRA) : option nat :=
  match cs with
  | [] => None
  | c :: cs' =>
      if (atom_matches model c1 (conn_atom0 c)
          && atom_matches model c2 (conn_atom1 c))
         || (atom_matches model c1 (conn_atom1 c)
             && atom_matches model c2 (conn_atom0 c))
      then Some i
      else find_connection_from (S i) cs' model c1 c2
  end.

(** [find_connection_by_cra]: the first connection between the two atoms. *)
Definition find_connection_by_cra (model : Model) (c1 c2 : CRA) : option nat :=
  find_connection_from 0 (connections model) model c1 c2.

(** The orientation in which a rule matches the query atom and the
    candidate: [Some true] is [order1], [None] is the [continue]. *)
Definition link_order (lh : LinkHunt) (link : ChemLink) (bond : Bond)
  (res : Residue) (atm : Atom) (cres : Residue) : option bool :=
  if String.eqb (atom (id1 bond)) (name atm)
     && match_link_side lh (side1 link) (res_name res)
     && match_link_side lh (side2 link) (res_name cres)
  then Some true
  else if String.eqb (atom (id2 bond)) (name atm)
          && match_link_side lh (side2 link) (res_name res)
          && match_link_side lh (side1 link) (res_name cres)
  then Some false
  else None.

(** One chirality of the rule: the body of the loop of the chirality check. *)
Definition chirality_step (res : Residue) (atm : Atom) (cres : Residue)
  (catm : Atom) (order1 : bool) (chirality_score : Z) (chirality : Chirality)
  : Z :=
  match chir chirality with
  | Both => chirality_score
  | _ =>
      let res1 := if order1 then res else cres in
      let res2 := if order1 then cres else res in
      let alt := if is_nul (altloc atm) then altloc catm else altloc atm in
      match get_from (id_ctr chirality) res1 res2 alt,
            get_from (chir_id1 chirality) res1 res2 alt,
            get_from (chir_id2 chirality) res1 res2 alt,
            get_from (chir_id3 chirality) res1 res2 alt with
      | Some at1, Some at2, Some at3, Some at4 =>
          let vol := calculate_chiral_volume (pos at1) (pos at2)
                                             (pos at3) (pos at4) in
          if is_wrong chirality vol then (chirality_score - 1)%Z
          else chirality_score
      | _, _, _, _ => chirality_score
      end
  end.

(** [chirality_score] after the loop over [link.rt.chirs]. *)
Definition chirality_score (link : ChemLink) (res : Residue) (atm : Atom)
  (cres : Residue) (catm : Atom) (order1 : bool) : Z :=
  fold_left (chirality_step res atm cres catm order1) (chirs (rt link)) 0%Z.

(** The body of the loop over the rules of the atom-name pair. A rule
    without a bond is never in [links] ([index_chem_links] skips it), so
    [bonds[0]] exists; the model leaves the match as it is otherwise. *)
Definition try_link (lh : LinkHunt) (bond_margin : Q) (q : CRA)
  (res : Residue) (atm : Atom) (c : CRA) (cres : Residue) (catm : Atom)
  (dist_sq : Q) (mt : Match) (link : ChemLink) : Match :=
  match bonds (rt link) with
  | [] => mt
  | bond :: _ =>
      if Qgtb dist_sq (sq (value bond * bond_margin)) then mt
      else
        match link_order lh link bond res atm cres with
        | None => mt
        | Some order1 =>
            if (chirality_score link res atm cres catm order1 <? 0)%Z then mt
            else
              mkMatch (Some link) (chem_link_count mt + 1)
                      (if order1 then Some q else Some c)
                      (if order1 then Some c else Some q)
                      (same_asu mt) (bond_length mt) (conn mt)
        end
  end.

(** The visitor passed to [for_each]: [None] is a [return] before
    [results.push_back(match)], [Some] is the record pushed. *)
Definition visit (lh : LinkHunt) (model : Model) (bond_margin radius_margin : Q)
  (n_ch n_res n_atom : nat) (res : Residue) (atm : Atom)
  (m : Mark) (dist_sq : Q) : option Match :=
  if inside_residue n_ch n_res m then None
  else if reported_twice n_ch n_res n_atom m then None
  else if image_too_close n_ch n_res n_atom m dist_sq then None
  else
    let c := to_cra m in
    match cra_residue_of model c, cra_atom_of model c with
    | Some cres, Some catm =>
        let q := mkCRA n_ch n_res n_atom in
        let range := equal_range (links lh)
                       (lexicographic_str (name atm) (name catm)) in
        let mt := fold_left
                    (try_link lh bond_margin q res atm c cres catm dist_sq)
                    range Match_default in
        let same := Nat.eqb (image_idx m) 0 in
        match chem_link mt with
        | Some _ =>
            Some (mkMatch (chem_link mt) (chem_link_count mt) (cra1 mt)
                          (cra2 mt) same (fsqrt dist_sq) (conn mt))
        | None =>
            let r1 := covalent_r (element atm) in
            let r2 := covalent_r (element catm) in
            if Qgtb dist_sq (sq ((r1 + r2) * radius_margin)) then None
            else
              Some (mkMatch (chem_link mt) (chem_link_count mt) (Some c)
                            (Some q) same (fsqrt dist_sq) (conn mt))
        end
    | _, _ => None
    end.

(** The body of the innermost loop: the records pushed while [atm] is the
    query atom. *)
Definition links_of_atom (lh : LinkHunt) (sc : SubCells) (model : Model)
  (bond_margin radius_margin : Q) (n_ch n_res n_atom : nat)
  (res : Residue) (atm : Atom) : list Match :=
  match max_dist_per_atom lh !! name atm with
  | None => []
  | Some max_dist =>
      omap (fun md : Mark * Q =>
              visit lh model bond_margin radius_margin n_ch n_res n_atom
                    res atm md.1 md.2)
           (for_each sc (pos atm) (altloc atm) max_dist)
  end.

(** The three nested loops over chains, residues and atoms. *)
Definition scan (lh : LinkHunt) (sc : SubCells) (model : Model)
  (bond_margin radius_margin : Q) : list Match :=
  for_index 0 (chains model) (fun n_ch chain =>
    for_index 0 (residues chain) (fun n_res res =>
      for_index 0 (atoms res) (fun n_atom atm =>
        links_of_atom lh sc model bond_margin radius_margin
                      n_ch n_res n_atom res atm))).

(** The radius the spatial index is built with. *)
Definition index_cutoff (lh : LinkHunt) (bond_margin : Q) : Q :=
  std_max 5.0 (global_max_dist lh * bond_margin).

(** [SubCells sc(model, st.cell, cutoff); sc.populate(model);] *)
Definition build_index (lh : LinkHunt) (model : Model) (c : UnitCell)
  (bond_margin : Q) : SubCells :=
  populate (SubCells_new model c (index_cutoff lh bond_margin)) model.

(** The last loop: [match.conn = find_connection_by_cra(...)]. *)
Definition attach_conn (model : Model) (mt : Match) : Match :=
  set_conn mt
    match cra1 mt, cra2 mt with
    | Some c1, Some c2 => find_connection_by_cra model c1 c2
    | _, _ => None
    end.

(** [LinkHunt::find_possible_links]. *)
Definition find_possible_links (lh : LinkHunt) (st : Structure)
  (bond_margin radius_margin : Q) : error + list Match :=
  match models st !! 0%nat with
  | None => inl out_of_range
  | Some model =>
      let sc := build_index lh model (cell st) bond_margin in
      let results := scan lh sc model bond_margin radius_margin in
      inr (map (attach_conn model) results)
  end.


(** The four reference atoms of a chirality, when all of them resolve. *)
Definition resolved (res1 res2 : Residue) (alt : ascii) (c : Chirality)
  : option (Atom * Atom * Atom * Atom) :=
  match get_from (id_ctr c) res1 res2 alt, get_from (chir_id1 c) res1 res2 alt,
        get_from (chir_id2 c) res1 res2 alt, get_from (chir_id3 c) res1 res2 alt
  with
  | Some at1, Some at2, Some at3, Some at4 => Some (at1, at2, at3, at4)
  | _, _, _, _ => None
  end.

(** A chirality with a definite expected sign, whose four atoms resolve and
    whose computed volume contradicts the expected sign. *)
Definition contradicted (res1 res2 : Residue) (alt : ascii) (c : Chirality)
  : Prop :=
  chir c ≠ Both
  ∧ ∃ at1 at2 at3 at4,
      resolved res1 res2 alt c = Some (at1, at2, at3, at4)
      ∧ is_wrong c (calculate_chiral_volume (pos at1) (pos at2) (pos at3)
                                            (pos at4)) = true.

(** The residues and the altloc that the chirality check of a rule uses. *)
Definition chir_res1 (res cres : Residue) (order1 : bool) : Residue :=
  if order1 then res else cres.

Definition chir_res2 (res cres : Residue) (order1 : bool) : Residue :=
  if order1 then cres else res.

Definition chir_alt (atm catm : Atom) : ascii :=
  if is_nul (altloc atm) then altloc catm else altloc atm.

(** The orientation in which a rule is accepted for a query atom and a
    candidate, if it is accepted: the distance is within the bond length
    of the rule times the margin, the names and the sides match in that
    orientation, and the chirality score is not negative. *)
Definition accepted_order (lh : LinkHunt) (bond_margin : Q) (res : Residue)
  (atm : Atom) (cres : Residue) (catm : Atom) (dist_sq : Q) (link : ChemLink)
  : option bool :=
  match bonds (rt link) with
  | [] => None
  | bond :: _ =>
      if Qle_bool dist_sq (sq (value bond * bond_margin)) then
        match link_order lh link bond res atm cres with
        | Some order1 =>
            if (0 <=? chirality_score link res atm cres catm order1)%Z
            then Some order1 else None
        | None => None
        end
      else None
  end.

Definition accepted (lh : LinkHunt) (bond_margin : Q) (res : Residue)
  (atm : Atom) (cres : Residue) (catm : Atom) (dist_sq : Q) (link : ChemLink)
  : Prop :=
  is_Some (accepted_order lh bond_margin res atm cres catm dist_sq link).

#[global] Instance accepted_dec lh bond_margin res atm cres catm dist_sq link :
  Decision (accepted lh bond_margin res atm cres catm dist_sq link).
Proof. unfold accepted. apply _. Defined.

(** The same, as the test the code performs. *)
Definition contradictedb (res1 res2 : Residue) (alt : ascii) (c : Chirality)
  : bool :=
  match chir c with
  | Both => false
  | _ =>
      match resolved res1 res2 alt c with
      | Some (at1, at2, at3, at4) =>
          is_wrong c (calculate_chiral_volume (pos at1) (pos at2) (pos at3)
                                              (pos at4))
      | None => false
      end
  end.

(** The match after a rule is accepted in orientation [order1]. *)
Definition accept (q c : CRA) (mt : Match) (link : ChemLink) (order1 : bool)
  : Match :=
  mkMatch (Some link) (chem_link_count mt + 1)
          (if order1 then Some q else Some c)
          (if order1 then Some c else Some q)
          (same_asu mt) (bond_length mt) (conn mt).

(** The test of [find_connection_by_cra] on one connection: it joins the
    two atoms, in either order. *)
Definition connects (model : Model) (c1 c2 : CRA) (c : Connection) : bool :=
  (atom_matches model c1 (conn_atom0 c) && atom_matches model c2 (conn_atom1 c))
  || (atom_matches model c1 (conn_atom1 c)
      && atom_matches model c2 (conn_atom0 c)).


(** ** Numbers: the boolean comparisons *)

Lemma Qgtb_lt a b : Qgtb a b = true ↔ (b < a)%Q.
Proof.
  unfold Qgtb. rewrite negb_true_iff, <- not_true_iff_false, Qle_bool_iff.
  split; [apply Qnot_le_lt | apply Qlt_not_le].
Qed.

Lemma Qltb_lt a b : Qltb a b = true ↔ (a < b)%Q.
Proof. apply Qgtb_lt. Qed.

Lemma Qgtb_le a b : Qgtb a b = false ↔ (a <= b)%Q.
Proof. unfold Qgtb. rewrite negb_false_iff. apply Qle_bool_iff. Qed.

Lemma Qltb_le a b : Qltb a b = false ↔ (b <= a)%Q.
Proof. apply Qgtb_le. Qed.

Lemma Qltb_irrefl v : Qltb v v = false.
Proof. apply Qltb_le. lra. Qed.

Lemma std_max_spec a b :
  ((a < b)%Q → std_max a b = b) ∧ ((b <= a)%Q → std_max a b = a)
  ∧ (a <= std_max a b)%Q ∧ (b <= std_max a b)%Q.
Proof.
  unfold std_max. destruct (Qltb a b) eqn:E.
  - apply Qltb_lt in E. repeat split; intros; try done; lra.
  - apply Qltb_le in E. repeat split; intros; try done; lra.
Qed.

(** ** Numbers: the square root *)

Lemma Q2R_zero : Q2R 0 = 0%R.
Proof. unfold Q2R. cbn. Lra.lra. Qed.

Lemma Q2R_sq (y : Q) : Q2R (sq y) = (Q2R y * Q2R y)%R.
Proof. unfold sq. apply Q2R_mult. Qed.

(** The length whose square is [x] is at most [|y|] when [x <= y^2]. *)
Lemma sqrt_le_abs (x y : Q) :
  (x <= sq y)%Q → (sqrt (Q2R x) <= Rabs (Q2R y))%R.
Proof.
  intros Hx. apply Qle_Rle in Hx. rewrite Q2R_sq in Hx.
  rewrite <- sqrt_Rsqr_abs. apply sqrt_le_1_alt. exact Hx.
Qed.

Lemma sqrt_le_nonneg (x y : Q) :
  (x <= sq y)%Q → (0 <= y)%Q → (sqrt (Q2R x) <= Q2R y)%R.
Proof.
  intros Hx Hy. apply Qle_Rle in Hy. rewrite Q2R_zero in Hy.
  rewrite <- (Rabs_pos_eq (Q2R y)) by exact Hy. by apply sqrt_le_abs.
Qed.

(** The length whose square is [x] is below the rational [y > 0] exactly
    when [x] is below the square of [y]. *)
Lemma sqrt_lt_iff (x y : Q) :
  (0 < y)%Q → (sqrt (Q2R x) < Q2R y)%R ↔ (x < sq y)%Q.
Proof.
  intros Hy. apply Qlt_Rlt in Hy. rewrite Q2R_zero in Hy.
  pose proof (sqrt_pos (Q2R x)) as Hpos.
  split.
  - intros Hlt. apply Rlt_Qlt. rewrite Q2R_sq.
    assert (sqrt (Q2R x) * sqrt (Q2R x) < Q2R y * Q2R y)%R as Hsq
      by (apply Rmult_le_0_lt_compat; Lra.lra).
    destruct (Rle_lt_dec 0 (Q2R x)) as [Hx|Hx].
    + rewrite (sqrt_sqrt (Q2R x) Hx) in Hsq. exact Hsq.
    + pose proof (Rle_0_sqr (Q2R y)) as Hy2. unfold Rsqr in Hy2. Lra.lra.
  - intros Hlt. apply Qlt_Rlt in Hlt. rewrite Q2R_sq in Hlt.
    destruct (Rle_lt_dec 0 (Q2R x)) as [Hx|Hx].
    + destruct (Rlt_le_dec (sqrt (Q2R x)) (Q2R y)) as [|Hle]; [done|].
      assert (Q2R y * Q2R y <= sqrt (Q2R x) * sqrt (Q2R x))%R as Hsq
        by (apply Rmult_le_compat; Lra.lra).
      rewrite (sqrt_sqrt (Q2R x) Hx) in Hsq. Lra.lra.
    + rewrite sqrt_neg_0 by Lra.lra. exact Hy.
Qed.

Lemma squared_distance_nonneg (a b : Position) :
  (0 <= squared_distance a b)%Q.
Proof.
  assert (∀ t : Q, (0 <= t * t)%Q) as Hsq by (intros t; nra).
  unfold squared_distance, sq.
  pose proof (Hsq (px a - px b)%Q). pose proof (Hsq (py a - py b)%Q).
  pose proof (Hsq (pz a - pz b)%Q). lra.
Qed.

(** ** The index of the dictionary: what each step does *)

Lemma Group_eqb_eq a b : Group_eqb a b = true ↔ a = b.
Proof. destruct a, b; simpl; split; congruence. Qed.

Lemma in_vector_elem_of x v : in_vector x v = true ↔ x ∈ v.
Proof.
  unfold in_vector. rewrite existsb_exists, list_elem_of_In. split.
  - intros (y & Hy & Heq). apply String.eqb_eq in Heq. by subst.
  - intros H. exists x. split; [done | apply String.eqb_refl].
Qed.

Lemma too_generic_test link :
  (String.eqb (comp (side1 link)) EmptyString
   && String.eqb (comp (side2 link)) EmptyString
   && (Group_eqb (group (side1 link)) Null
       || Group_eqb (group (side2 link)) Null
       || in_vector (id link) blacklist)) = true ↔ too_generic link.
Proof.
  unfold too_generic.
  rewrite !andb_true_iff, !orb_true_iff, !String.eqb_eq, !Group_eqb_eq,
    in_vector_elem_of.
  unfold blacklist, generic_link_names. tauto.
Qed.

Lemma index_link_retained lh err link :
  index_link (lh, err) link =
  match bonds (rt link) with
  | [] => (lh, err)
  | bond :: more =>
      (if decide (too_generic link) then lh else retain_link lh link bond,
       match more with [] => err | _ :: _ => (err ++ [note_first_bond link])%list end)
  end.
Proof.
  unfold index_link. destruct (bonds (rt link)) as [|bond more]; [reflexivity|].
  pose proof (too_generic_test link) as Ht.
  destruct (String.eqb (comp (side1 link)) EmptyString
            && String.eqb (comp (side2 link)) EmptyString) eqn:Hc;
    destruct (Group_eqb (group (side1 link)) Null
              || Group_eqb (group (side2 link)) Null
              || in_vector (id link) blacklist) eqn:Ho;
    simpl in Ht; destruct (decide (too_generic link)) as [Hg|Hg];
    try reflexivity.
  - exfalso. apply Hg, Ht. reflexivity.
  - apply Ht in Hg. discriminate.
  - apply Ht in Hg. discriminate.
  - apply Ht in Hg. discriminate.
Qed.

Lemma index_link_retained_case lh err link :
  retained link →
  ∃ b bs, bonds (rt link) = b :: bs
          ∧ (index_link (lh, err) link).1 = retain_link lh link b.
Proof.
  intros [Hb Hg]. rewrite index_link_retained.
  destruct (bonds (rt link)) as [|b bs]; [simpl in Hb; lia|].
  exists b, bs. split; [done|]. cbn [fst].
  by destruct (decide (too_generic link)).
Qed.

Lemma index_link_skipped_case lh err link :
  ¬ retained link → (index_link (lh, err) link).1 = lh.
Proof.
  intros Hr. rewrite index_link_retained.
  destruct (bonds (rt link)) as [|b bs] eqn:Eb; [done|]. cbn [fst].
  destruct (decide (too_generic link)) as [|Hg]; [done|].
  exfalso. apply Hr. split; [rewrite Eb; simpl; lia | done].
Qed.

Lemma index_link_stderr lh err link :
  (index_link (lh, err) link).2 =
  if decide (multi_bond link) then (err ++ [note_first_bond link])%list else err.
Proof.
  rewrite index_link_retained.
  destruct (decide (multi_bond link)) as [Hm|Hm]; unfold multi_bond in Hm;
    destruct (bonds (rt link)) as [|b [|b2 bs]]; simpl in *; try lia; try done.
Qed.

Lemma link_entry_retained link b bs :
  bonds (rt link) = b :: bs → link_entry link = Some (bond_lexicographic_str b, link).
Proof. intros E. unfold link_entry. by rewrite E. Qed.

Lemma first_bond_value_cons link b bs :
  bonds (rt link) = b :: bs → first_bond_value link = value b.
Proof. intros E. unfold first_bond_value. by rewrite E. Qed.

Lemma fold_index_link ls lh err :
  let r := fold_left index_link ls (lh, err) in
  links r.1 = (links lh ++ omap link_entry (filter retained ls))%list
  ∧ r.2 = (err ++ map note_first_bond (filter multi_bond ls))%list
  ∧ res_group r.1 = res_group lh.
Proof.
  revert lh err. induction ls as [|link ls IH]; intros lh err; cbv zeta.
  - simpl. by rewrite !app_nil_r.
  - cbn [fold_left].
    pose proof (index_link_stderr lh err link) as Herr.
    pose proof (index_link_retained_case lh err link) as Hret.
    pose proof (index_link_skipped_case lh err link) as Hskip.
    destruct (index_link (lh, err) link) as [lh1 err1]. cbn [fst snd] in *.
    destruct (IH lh1 err1) as (IH1 & IH2 & IH3).
    rewrite IH1, IH2, IH3, Herr, !filter_cons. clear IH IH1 IH2 IH3 Herr.
    split; [|split].
    + destruct (decide (retained link)) as [Hr|Hr].
      * destruct (Hret Hr) as (b & bs & Eb & ->).
        cbn [omap list_omap]. rewrite (link_entry_retained _ _ _ Eb).
        cbn [retain_link links]. by rewrite <- app_assoc.
      * by rewrite (Hskip Hr).
    + destruct (decide (multi_bond link)); [|done].
      cbn [map]. by rewrite <- app_assoc.
    + destruct (decide (retained link)) as [Hr|Hr].
      * by destruct (Hret Hr) as (b & bs & Eb & ->).
      * by rewrite (Hskip Hr).
Qed.

Lemma omap_link_entry_retained ls :
  map snd (omap link_entry (filter retained ls)) = filter retained ls.
Proof.
  induction ls as [|link ls IH]; [done|].
  rewrite filter_cons. destruct (decide (retained link)) as [[Hb _]|]; [|done].
  destruct (bonds (rt link)) as [|b bs] eqn:Eb; [simpl in Hb; lia|].
  cbn [omap list_omap]. rewrite (link_entry_retained _ _ _ Eb).
  cbn [map snd]. by f_equal.
Qed.

Lemma fold_index_residue_info ris lh :
  let lh' := fold_left index_residue_info ris lh in
  global_max_dist lh' = global_max_dist lh ∧ links lh' = links lh
  ∧ max_dist_per_atom lh' = max_dist_per_atom lh.
Proof.
  revert lh. induction ris as [|ri ris IH]; intros lh; simpl; [done|].
  destruct (IH (index_residue_info lh ri)) as (-> & -> & ->). done.
Qed.

Lemma retain_link_global_max_dist lh link bond :
  let g := global_max_dist (retain_link lh link bond) in
  (g = global_max_dist lh ∨ g = value bond)
  ∧ (global_max_dist lh <= g)%Q ∧ (value bond <= g)%Q.
Proof.
  cbn. destruct (Qgtb (value bond) (global_max_dist lh)) eqn:E.
  - apply Qgtb_lt in E. repeat split; [by right | lra | lra].
  - apply Qgtb_le in E. repeat split; [by left | lra | lra].
Qed.

Lemma fold_index_link_global_max_dist ls lh err :
  let g := global_max_dist (fold_left index_link ls (lh, err)).1 in
  let vals := global_max_dist lh :: map first_bond_value (filter retained ls) in
  In g vals ∧ Forall (fun v => (v <= g)%Q) vals.
Proof.
  revert lh err. induction ls as [|link ls IH]; intros lh err; cbv zeta.
  - simpl. split; [by left | constructor; [lra | constructor]].
  - cbn [fold_left].
    pose proof (index_link_retained_case lh err link) as Hret.
    pose proof (index_link_skipped_case lh err link) as Hskip.
    destruct (index_link (lh, err) link) as [lh1 err1]. cbn [fst snd] in *.
    destruct (IH lh1 err1) as [IHin IHall]. clear IH.
    apply Forall_cons in IHall as [IHhd IHtl]. rewrite filter_cons.
    destruct (decide (retained link)) as [Hr|Hr].
    + destruct (Hret Hr) as (b & bs & Eb & ->).
      cbn [map]. rewrite (first_bond_value_cons _ _ _ Eb).
      destruct (retain_link_global_max_dist lh link b) as (Hor & Hle1 & Hle2).
      cbv zeta in Hor, Hle1, Hle2. split.
      * destruct IHin as [IHin|IHin].
        -- rewrite <- IHin. destruct Hor as [->| ->]; [by left | right; by left].
        -- right. by right.
      * constructor; [lra|]. constructor; [lra | done].
    + rewrite (Hskip Hr) in *. split; [done | by constructor].
Qed.

Lemma emplace_max_lookup m n v k :
  emplace_max m n v !! k =
  if decide (n = k)
  then Some (match m !! n with
             | None => v
             | Some old => if Qltb old v then v else old
             end)
  else m !! k.
Proof.
  unfold emplace_max. destruct (decide (n = k)) as [->|Hne].
  - destruct (m !! k) as [old|] eqn:E.
    + destruct (Qltb old v); [by rewrite lookup_insert_eq | done].
    + by rewrite lookup_insert_eq.
  - destruct (m !! n) as [old|].
    + destruct (Qltb old v); [by rewrite lookup_insert_ne | done].
    + by rewrite lookup_insert_ne.
Qed.

Lemma emplace_max_twice m n v :
  emplace_max (emplace_max m n v) n v = emplace_max m n v.
Proof.
  unfold emplace_max at 1. rewrite emplace_max_lookup.
  destruct (decide (n = n)); [|done].
  destruct (m !! n) as [old|]; [|by rewrite Qltb_irrefl].
  destruct (Qltb old v) eqn:E; [by rewrite Qltb_irrefl | by rewrite E].
Qed.

Lemma retain_link_max_dist_per_atom lh link bond :
  max_dist_per_atom (retain_link lh link bond)
  = emplace_max (max_dist_per_atom lh) (atom (id1 bond)) (value bond).
Proof. cbn. apply emplace_max_twice. Qed.

Lemma fold_index_link_keys ls lh err k :
  is_Some (max_dist_per_atom (fold_left index_link ls (lh, err)).1 !! k)
  ↔ is_Some (max_dist_per_atom lh !! k)
    ∨ ∃ link, link ∈ ls ∧ retained link ∧ first_bond_id1 link = Some k.
Proof.
  revert lh err. induction ls as [|link ls IH]; intros lh err.
  - simpl. split; [by left | intros [H|(l & Hl & _)]; [done | by inversion Hl]].
  - cbn [fold_left].
    pose proof (index_link_retained_case lh err link) as Hret.
    pose proof (index_link_skipped_case lh err link) as Hskip.
    destruct (index_link (lh, err) link) as [lh1 err1]. cbn [fst snd] in *.
    rewrite IH. clear IH.
    destruct (decide (retained link)) as [Hr|Hr].
    + destruct (Hret Hr) as (b & bs & Eb & ->).
      rewrite retain_link_max_dist_per_atom, emplace_max_lookup.
      assert (first_bond_id1 link = Some (atom (id1 b))) as Hid
        by (unfold first_bond_id1; by rewrite Eb).
      split.
      * intros [H|(l & Hl & Hrl & Hk)].
        -- destruct (decide (atom (id1 b) = k)) as [Hk|Hk]; [|by left].
           right. exists link. split; [left | by rewrite Hid, Hk].
        -- right. exists l. split; [by right | done].
      * intros [H|(l & Hl & Hrl & Hk)].
        -- left. destruct (decide (atom (id1 b) = k)); [by eexists | done].
        -- apply elem_of_cons in Hl as [->|Hl].
           ++ left. rewrite Hid in Hk. injection Hk as Hk.
              destruct (decide (atom (id1 b) = k)); [by eexists | done].
           ++ right. exists l. done.
    + rewrite (Hskip Hr). split.
      * intros [H|(l & Hl & Hrl & Hk)]; [by left|].
        right. exists l. split; [by right | done].
      * intros [H|(l & Hl & Hrl & Hk)]; [by left|].
        apply elem_of_cons in Hl as [->|Hl]; [done|].
        right. exists l. done.
Qed.


(** ** The loops over the atoms of a model *)

Lemma for_index_elem_of {A B : Type} (body : nat → A → list B) v i (x : B) :
  x ∈ for_index i v body ↔ ∃ k a, v !! k = Some a ∧ x ∈ body (i + k)%nat a.
Proof.
  revert i. induction v as [|y v IH]; intros i; cbn [for_index].
  - split; [by intros H%elem_of_nil | by intros (k & a & H & _)].
  - rewrite elem_of_app, IH. split.
    + intros [H|(k & a & Hk & H)].
      * exists 0%nat, y. by rewrite Nat.add_0_r.
      * exists (S k), a. split; [done|]. by rewrite Nat.add_succ_r.
    + intros ([|k] & a & Hk & H).
      * left. injection Hk as ->. by rewrite Nat.add_0_r in H.
      * right. exists k, a. split; [done|]. by rewrite Nat.add_succ_r in H.
Qed.

Lemma for_index_filter_nil {A B : Type} (P : B → Prop) `{∀ x, Decision (P x)}
  (body : nat → A → list B) v i :
  (∀ j x, (i ≤ j)%nat → filter P (body j x) = []) →
  filter P (for_index i v body) = [].
Proof.
  revert i. induction v as [|y v IH]; intros i Hb; cbn [for_index]; [done|].
  rewrite filter_app, Hb by lia. apply IH. intros j x Hj. apply Hb. lia.
Qed.

Lemma for_index_filter_length {A B : Type} (P : B → Prop) `{∀ x, Decision (P x)}
  (body : nat → A → list B) (k n : nat) v i :
  (∀ j x, j ≠ k → filter P (body j x) = []) →
  (∀ x, (length (filter P (body k x)) ≤ n)%nat) →
  (length (filter P (for_index i v body)) ≤ n)%nat.
Proof.
  intros Hne Hk. revert i. induction v as [|y v IH]; intros i; cbn [for_index].
  - simpl. lia.
  - rewrite filter_app, length_app. destruct (decide (i = k)) as [->|Hik].
    + rewrite (for_index_filter_nil P body v (S k)).
      * simpl. specialize (Hk y). lia.
      * intros j x Hj. apply Hne. lia.
    + rewrite Hne by done. simpl. apply IH.
Qed.

Lemma scan3_elem_of {B : Type} model (f : nat → nat → nat → Residue → Atom → list B) x :
  x ∈ scan3 model f ↔
  ∃ n_ch chain n_res res n_atom atm,
    chains model !! n_ch = Some chain ∧ residues chain !! n_res = Some res
    ∧ atoms res !! n_atom = Some atm ∧ x ∈ f n_ch n_res n_atom res atm.
Proof.
  unfold scan3. rewrite for_index_elem_of. split.
  - intros (n_ch & chain & Hc & H). apply for_index_elem_of in H.
    destruct H as (n_res & res & Hr & H). apply for_index_elem_of in H.
    destruct H as (n_atom & atm & Ha & H). cbn in H.
    by exists n_ch, chain, n_res, res, n_atom, atm.
  - intros (n_ch & chain & n_res & res & n_atom & atm & Hc & Hr & Ha & H).
    exists n_ch, chain. split; [done|]. apply for_index_elem_of.
    exists n_res, res. split; [done|]. apply for_index_elem_of.
    by exists n_atom, atm.
Qed.

Lemma scan3_filter_length {B : Type} (P : B → Prop) `{∀ x, Decision (P x)}
  model (f : nat → nat → nat → Residue → Atom → list B) (c : CRA) (n : nat) :
  (∀ n_ch n_res n_atom res atm,
     mkCRA n_ch n_res n_atom ≠ c → filter P (f n_ch n_res n_atom res atm) = []) →
  (∀ res atm,
     (length (filter P (f (cra_chain c) (cra_residue c) (cra_atom c) res atm)) ≤ n)%nat) →
  (length (filter P (scan3 model f)) ≤ n)%nat.
Proof.
  intros Hne Hc. unfold scan3.
  apply (for_index_filter_length P _ (cra_chain c)).
  - intros j chain Hj. apply for_index_filter_nil. intros j2 res _.
    apply for_index_filter_nil. intros j3 atm _. apply Hne.
    destruct c. cbn in Hj. congruence.
  - intros chain. apply (for_index_filter_length P _ (cra_residue c)).
    + intros j res Hj. apply for_index_filter_nil. intros j3 atm _. apply Hne.
      destruct c. cbn in Hj. congruence.
    + intros res. apply (for_index_filter_length P _ (cra_atom c)).
      * intros j atm Hj. apply Hne. destruct c. cbn in Hj. congruence.
      * intros atm. apply Hc.
Qed.


(** ** The chirality check *)

Lemma contradictedb_spec res1 res2 alt c :
  contradictedb res1 res2 alt c = true ↔ contradicted res1 res2 alt c.
Proof.
  unfold contradictedb, contradicted. split.
  - intros H. split; [by destruct (chir c)|].
    destruct (chir c); try discriminate;
      destruct (resolved res1 res2 alt c) as [[[[a1 a2] a3] a4]|];
      try discriminate; by exists a1, a2, a3, a4.
  - intros [Hc (a1 & a2 & a3 & a4 & -> & Hw)]. by destruct (chir c).
Qed.

Lemma chirality_step_spec res atm cres catm order1 score c :
  chirality_step res atm cres catm order1 score c =
  if contradictedb (chir_res1 res cres order1) (chir_res2 res cres order1)
                   (chir_alt atm catm) c
  then (score - 1)%Z else score.
Proof.
  unfold chirality_step, contradictedb, resolved, chir_res1, chir_res2, chir_alt.
  destruct (chir c); try reflexivity;
    repeat match goal with
           | |- context [get_from ?i ?r1 ?r2 ?a] =>
               destruct (get_from i r1 r2 a); try reflexivity
           end.
Qed.

Lemma fold_chirality_step res atm cres catm order1 cs score :
  fold_left (chirality_step res atm cres catm order1) cs score =
  (score - Z.of_nat (length (filter
     (λ c, contradictedb (chir_res1 res cres order1) (chir_res2 res cres order1)
                         (chir_alt atm catm) c = true) cs)))%Z.
Proof.
  revert score. induction cs as [|c cs IH]; intros score; cbn [fold_left].
  - simpl. lia.
  - rewrite IH, chirality_step_spec, filter_cons.
    destruct (contradictedb _ _ _ c) eqn:E.
    + destruct (decide (true = true)); [|done]. cbn [length]. lia.
    + destruct (decide (false = true)); [done|]. lia.
Qed.

Lemma chirality_score_spec link res atm cres catm order1 :
  chirality_score link res atm cres catm order1 =
  (- Z.of_nat (length (filter
     (λ c, contradictedb (chir_res1 res cres order1) (chir_res2 res cres order1)
                         (chir_alt atm catm) c = true) (chirs (rt link)))))%Z.
Proof. unfold chirality_score. rewrite fold_chirality_step. lia. Qed.

Lemma chirality_score_negative link res atm cres catm order1 :
  (chirality_score link res atm cres catm order1 <? 0)%Z = true
  ↔ Exists (contradicted (chir_res1 res cres order1) (chir_res2 res cres order1)
                         (chir_alt atm catm)) (chirs (rt link)).
Proof.
  rewrite chirality_score_spec, Z.ltb_lt.
  set (P := λ c, contradictedb _ _ _ c = true).
  rewrite Exists_exists. split.
  - intros Hlt. destruct (filter P (chirs (rt link))) as [|c l] eqn:E;
      [simpl in Hlt; lia|].
    assert (c ∈ filter P (chirs (rt link))) as Hc by (rewrite E; left).
    apply list_elem_of_filter in Hc as [HP Hin]. exists c.
    split; [done | by apply contradictedb_spec].
  - intros (c & Hin & Hc). apply contradictedb_spec in Hc.
    assert (c ∈ filter P (chirs (rt link))) as Hf
      by (apply list_elem_of_filter; done).
    destruct (filter P (chirs (rt link))); [by inversion Hf | simpl; lia].
Qed.

(** ** The loop over the rules of an atom-name pair *)

Lemma try_link_spec lh bm q res atm c cres catm d mt link :
  try_link lh bm q res atm c cres catm d mt link =
  match accepted_order lh bm res atm cres catm d link with
  | Some order1 => accept q c mt link order1
  | None => mt
  end.
Proof.
  unfold try_link, accepted_order, Qgtb.
  destruct (bonds (rt link)) as [|bond bs]; [done|].
  destruct (Qle_bool d (sq (value bond * bm))); cbn [negb]; [|done].
  destruct (link_order lh link bond res atm cres) as [o|]; [|done].
  rewrite Z.ltb_antisym.
  by destruct (0 <=? chirality_score link res atm cres catm o)%Z.
Qed.

Lemma fold_try_link_fields lh bm q res atm c cres catm d range mt :
  let r := fold_left (try_link lh bm q res atm c cres catm d) range mt in
  same_asu r = same_asu mt ∧ bond_length r = bond_length mt ∧ conn r = conn mt.
Proof.
  revert mt. induction range as [|link range IH]; intros mt; [done|].
  cbn [fold_left]. cbv zeta. destruct (IH (try_link lh bm q res atm c cres catm d mt link))
    as (-> & -> & ->).
  rewrite try_link_spec. by destruct (accepted_order _ _ _ _ _ _ _ _).
Qed.

Lemma fold_try_link lh bm q res atm c cres catm d range mt :
  let acc := filter (accepted lh bm res atm cres catm d) range in
  fold_left (try_link lh bm q res atm c cres catm d) range mt =
  match last acc with
  | None => mt
  | Some link =>
      match accepted_order lh bm res atm cres catm d link with
      | Some order1 =>
          mkMatch (Some link) (chem_link_count mt + Z.of_nat (length acc))
                  (if order1 then Some q else Some c)
                  (if order1 then Some c else Some q)
                  (same_asu mt) (bond_length mt) (conn mt)
      | None => mt
      end
  end.
Proof.
  cbv zeta. induction range as [|link range IH] using rev_ind; [done|].
  rewrite fold_left_app, filter_app. cbn [fold_left].
  rewrite try_link_spec, filter_cons, filter_nil.
  destruct (decide (accepted lh bm res atm cres catm d link)) as [Ha|Ha].
  - rewrite last_snoc. destruct Ha as [o Ho]. rewrite Ho.
    pose proof (fold_try_link_fields lh bm q res atm c cres catm d range mt)
      as (Hs & Hb & Hc). cbv zeta in Hs, Hb, Hc.
    unfold accept. rewrite Hs, Hb, Hc. f_equal.
    rewrite length_app. cbn [length]. rewrite IH.
    destruct (last _) as [l0|] eqn:El.
    + apply last_Some in El as [l' El]. rewrite El.
      assert (l0 ∈ filter (accepted lh bm res atm cres catm d) range) as Hin
        by (rewrite El; apply elem_of_app; right; left).
      apply list_elem_of_filter in Hin as [[o0 Ho0] _]. rewrite Ho0.
      cbn [chem_link_count]. rewrite !length_app. cbn [length]. lia.
    + apply last_None in El. rewrite El. cbn [length]. lia.
  - rewrite app_nil_r.
    destruct (accepted_order lh bm res atm cres catm d link) eqn:E; [|done].
    exfalso. apply Ha. unfold accepted. rewrite E. by eexists.
Qed.

(** ** The visitor *)

Lemma reported_twice_lex n_ch n_res n_atom m :
  reported_twice n_ch n_res n_atom m
  = CRA_ltb (to_cra m) (mkCRA n_ch n_res n_atom).
Proof. reflexivity. Qed.

Lemma CRA_ltb_irrefl a : CRA_ltb a a = false.
Proof.
  unfold CRA_ltb. rewrite !Nat.ltb_irrefl, !Nat.eqb_refl. reflexivity.
Qed.

Ltac nat_tests :=
  repeat match goal with
         | |- context [Nat.ltb ?x ?y] => destruct (Nat.ltb_spec x y)
         | |- context [Nat.eqb ?x ?y] => destruct (Nat.eqb_spec x y)
         end.

Lemma CRA_ltb_total a b : CRA_ltb a b = false → CRA_ltb b a = false → a = b.
Proof.
  destruct a as [a1 a2 a3], b as [b1 b2 b3]. unfold CRA_ltb.
  cbn [cra_chain cra_residue cra_atom].
  nat_tests; cbn [orb andb]; intros; try congruence; try lia; f_equal; lia.
Qed.

Lemma CRA_ltb_asym a b : CRA_ltb a b = true → CRA_ltb b a = false.
Proof.
  destruct a as [a1 a2 a3], b as [b1 b2 b3]. unfold CRA_ltb.
  cbn [cra_chain cra_residue cra_atom].
  nat_tests; cbn [orb andb]; intros; try congruence; try lia.
Qed.

(** What a visit that pushes a record has gone through, and the record. *)
Lemma visit_Some lh model bm rm n_ch n_res n_atom res atm m d r :
  visit lh model bm rm n_ch n_res n_atom res atm m d = Some r ↔
  inside_residue n_ch n_res m = false
  ∧ reported_twice n_ch n_res n_atom m = false
  ∧ image_too_close n_ch n_res n_atom m d = false
  ∧ ∃ cres catm,
      cra_residue_of model (to_cra m) = Some cres
      ∧ cra_atom_of model (to_cra m) = Some catm
      ∧ let q := mkCRA n_ch n_res n_atom in
        let c := to_cra m in
        let acc := filter (accepted lh bm res atm cres catm d)
                     (equal_range (links lh)
                        (lexicographic_str (name atm) (name catm))) in
        (∃ link order1,
            last acc = Some link
            ∧ accepted_order lh bm res atm cres catm d link = Some order1
            ∧ r = mkMatch (Some link) (Z.of_nat (length acc))
                    (if order1 then Some q else Some c)
                    (if order1 then Some c else Some q)
                    (Nat.eqb (image_idx m) 0) (fsqrt d) None)
        ∨ (acc = []
           ∧ Qgtb d (sq ((covalent_r (element atm) + covalent_r (element catm))
                         * rm)) = false
           ∧ r = mkMatch None 0 (Some c) (Some q)
                   (Nat.eqb (image_idx m) 0) (fsqrt d) None).
Proof.
  unfold visit.
  destruct (inside_residue n_ch n_res m); [split; [done | by intros [? _]]|].
  destruct (reported_twice n_ch n_res n_atom m);
    [split; [done | by intros (_ & ? & _)]|].
  destruct (image_too_close n_ch n_res n_atom m d);
    [split; [done | by intros (_ & _ & ? & _)]|].
  destruct (cra_residue_of model (to_cra m)) as [cres|];
    [|split; [done | by intros (_ & _ & _ & ? & ? & ? & _)]].
  destruct (cra_atom_of model (to_cra m)) as [catm|];
    [|split; [done | by intros (_ & _ & _ & ? & ? & _ & ? & _)]].
  cbv zeta. rewrite fold_try_link. cbv zeta.
  remember (filter (accepted lh bm res atm cres catm d)
              (equal_range (links lh)
                 (lexicographic_str (name atm) (name catm)))) as acc eqn:Hacc.
  assert (∀ l0, l0 ∈ acc → accepted lh bm res atm cres catm d l0) as Hall
    by (subst acc; intros l0 [? _]%list_elem_of_filter; done).
  destruct (last acc) as [link|] eqn:El.
  - assert (link ∈ acc) as Hin.
    { apply last_Some in El as [l' ->]. apply elem_of_app. right. left. }
    apply Hall in Hin as [o Ho]. rewrite Ho. cbn.
    split.
    + intros [= <-]. repeat split; try done. exists cres, catm.
      rewrite <- Hacc. repeat split; try done. left. by exists link, o.
    + intros (_ & _ & _ & cres' & catm' & [= <-] & [= <-] & H).
      rewrite <- Hacc in H.
      destruct H as [(link' & o' & Hl & Ho' & ->)|(Hnil & _)].
      * rewrite El in Hl. injection Hl as <-. rewrite Ho in Ho'.
        by injection Ho' as <-.
      * rewrite Hnil in El. done.
  - apply last_None in El. cbn.
    destruct (Qgtb d _) eqn:Eg.
    + split; [done|].
      intros (_ & _ & _ & cres' & catm' & [= <-] & [= <-] & H).
      rewrite <- Hacc in H.
      destruct H as [(link' & o' & Hl & _)|(_ & Hg & _)].
      * rewrite El in Hl. done.
      * rewrite Eg in Hg. done.
    + split.
      * intros [= <-]. repeat split; try done. exists cres, catm.
        rewrite <- Hacc. repeat split; try done. right. done.
      * intros (_ & _ & _ & cres' & catm' & [= <-] & [= <-] & H).
        rewrite <- Hacc in H.
        destruct H as [(link' & o' & Hl & _)|(_ & _ & ->)]; [|done].
        rewrite El in Hl. done.
Qed.

(** The two atoms of a pushed record are the query atom and the atom of
    the mark, the mark is not before the query atom, and the record says
    whether the mark is in the asymmetric unit. *)
Lemma visit_endpoints lh model bm rm n_ch n_res n_atom res atm m d r :
  visit lh model bm rm n_ch n_res n_atom res atm m d = Some r →
  endpoints r (mkCRA n_ch n_res n_atom) (to_cra m)
  ∧ CRA_ltb (to_cra m) (mkCRA n_ch n_res n_atom) = false
  ∧ inside_residue n_ch n_res m = false
  ∧ same_asu r = Nat.eqb (image_idx m) 0
  ∧ bond_length r = fsqrt d.
Proof.
  intros H. apply visit_Some in H as (Hi & Ht & _ & cres & catm & _ & _ & H).
  cbv zeta in H. rewrite reported_twice_lex in Ht.
  destruct H as [(link & o & _ & _ & ->)|(_ & _ & ->)]; cbn.
  - repeat split; try done. unfold endpoints. cbn. destruct o; [by left | by right].
  - repeat split; try done. unfold endpoints. cbn. by right.
Qed.

Lemma for_each_elem_of sc p alt radius m d :
  (m, d) ∈ for_each sc p alt radius ↔
  m ∈ sc_marks sc ∧ d = squared_distance p (mark_pos m)
  ∧ Qle_bool d (sq radius) = true
  ∧ is_same_conformer alt (mark_altloc m) = true.
Proof.
  unfold for_each. rewrite list_elem_of_omap. split.
  - intros (m' & Hin & H). cbv zeta in H.
    destruct (Qle_bool _ _ && _) eqn:E; [|done].
    injection H as Hm Hd. subst m' d.
    apply andb_true_iff in E as [E1 E2]. done.
  - intros (Hin & -> & E1 & E2). exists m. split; [done|].
    cbv zeta. by rewrite E1, E2.
Qed.

Lemma scan_scan3 lh sc model bm rm :
  scan lh sc model bm rm
  = scan3 model (links_of_atom lh sc model bm rm).
Proof. reflexivity. Qed.

Lemma links_of_atom_elem_of lh sc model bm rm n_ch n_res n_atom res atm r :
  r ∈ links_of_atom lh sc model bm rm n_ch n_res n_atom res atm ↔
  ∃ max_dist m d,
    max_dist_per_atom lh !! name atm = Some max_dist
    ∧ (m, d) ∈ for_each sc (pos atm) (altloc atm) max_dist
    ∧ visit lh model bm rm n_ch n_res n_atom res atm m d = Some r.
Proof.
  unfold links_of_atom. destruct (max_dist_per_atom lh !! name atm) as [md|].
  - rewrite list_elem_of_omap. split.
    + intros ([m d] & Hin & Hv). by exists md, m, d.
    + intros (md' & m & d & [= <-] & Hin & Hv). by exists (m, d).
  - split; [by intros H%elem_of_nil | by intros (? & ? & ? & ? & _)].
Qed.

(** Where a record of the scan comes from. *)
Lemma scan_elem_of lh sc model bm rm r :
  r ∈ scan lh sc model bm rm ↔
  ∃ n_ch chain n_res res n_atom atm max_dist m d,
    chains model !! n_ch = Some chain ∧ residues chain !! n_res = Some res
    ∧ atoms res !! n_atom = Some atm
    ∧ max_dist_per_atom lh !! name atm = Some max_dist
    ∧ (m, d) ∈ for_each sc (pos atm) (altloc atm) max_dist
    ∧ visit lh model bm rm n_ch n_res n_atom res atm m d = Some r.
Proof.
  rewrite scan_scan3, scan3_elem_of. split.
  - intros (n_ch & chain & n_res & res & n_atom & atm & Hc & Hr & Ha & H).
    apply links_of_atom_elem_of in H as (md & m & d & Hmd & Hin & Hv).
    by exists n_ch, chain, n_res, res, n_atom, atm, md, m, d.
  - intros (n_ch & chain & n_res & res & n_atom & atm & md & m & d
            & Hc & Hr & Ha & Hmd & Hin & Hv).
    exists n_ch, chain, n_res, res, n_atom, atm. repeat split; try done.
    apply links_of_atom_elem_of. by exists md, m, d.
Qed.

Lemma attach_conn_fields model mt :
  chem_link (attach_conn model mt) = chem_link mt
  ∧ chem_link_count (attach_conn model mt) = chem_link_count mt
  ∧ cra1 (attach_conn model mt) = cra1 mt
  ∧ cra2 (attach_conn model mt) = cra2 mt
  ∧ same_asu (attach_conn model mt) = same_asu mt
  ∧ bond_length (attach_conn model mt) = bond_length mt.
Proof. done. Qed.

Lemma find_possible_links_inr lh st bm rm results :
  find_possible_links lh st bm rm = inr results ↔
  ∃ model, models st !! 0%nat = Some model
    ∧ results = map (attach_conn model)
                  (scan lh (build_index lh model (cell st) bm) model bm rm).
Proof.
  unfold find_possible_links. destruct (models st !! 0%nat) as [model|].
  - split.
    + intros [= <-]. by exists model.
    + intros (model' & [= <-] & ->). done.
  - split; [done | by intros (? & ? & _)].
Qed.

(** ** Properties of [index_chem_links] *)

Lemma index_chem_links_fields monlib lh :
  let values := map snd (monlib_links monlib) in
  let r := index_chem_links monlib lh in
  let s := fold_left index_link values (lh, []) in
  global_max_dist r.1 = global_max_dist s.1 ∧ links r.1 = links s.1
  ∧ max_dist_per_atom r.1 = max_dist_per_atom s.1 ∧ r.2 = s.2.
Proof.
  cbv zeta. unfold index_chem_links.
  destruct (fold_left index_link _ _) as [lh1 err]. cbn [fst snd].
  destruct (fold_index_residue_info (residue_infos monlib) lh1)
    as (-> & -> & ->). done.
Qed.

(** Every rule in [links] after indexing a dictionary from a fresh
    [LinkHunt] has a first bond, and is stored under the key of that bond:
    [link.rt.bonds[0]] in [find_possible_links] is always in range. *)
Lemma links_have_bond (monlib : MonLib) (e : (string * string) * ChemLink) :
  e ∈ links (index_chem_links monlib LinkHunt_init).1 →
  ∃ bond bs, bonds (rt e.2) = bond :: bs ∧ e.1 = bond_lexicographic_str bond.
Proof.
  destruct (index_chem_links_fields monlib LinkHunt_init) as (_ & -> & _ & _).
  destruct (fold_index_link (map snd (monlib_links monlib)) LinkHunt_init [])
    as (-> & _ & _).
  cbn [links LinkHunt_init app]. rewrite list_elem_of_omap.
  intros (link & _ & He). unfold link_entry in He.
  destruct (bonds (rt link)) as [|bond bs] eqn:Eb; [done|].
  injection He as <-. by exists bond, bs.
Qed.

(** C8. [index_chem_links] keeps a rule of the dictionary, adding it to
    [links] after the rules already there and in the order of the
    dictionary, if and only if the rule has at least one bond and is not
    too generic (both sides without a residue name, and a side without a
    group or an identifier among TRANS, PTRANS, NMTRANS, CIS, PCIS, NMCIS,
    p, SS). A rule without a bond changes nothing and writes nothing; the
    only lines written are the notes about rules with several bonds. *)
Theorem C8_index_chem_links_retains (monlib : MonLib) (lh : LinkHunt) :
  let values := map snd (monlib_links monlib) in
  let r := index_chem_links monlib lh in
  map snd (links r.1) = (map snd (links lh) ++ filter retained values)%list
  ∧ (∀ link, link ∈ map snd (links (index_chem_links monlib LinkHunt_init).1)
             ↔ link ∈ values ∧ retained link)
  ∧ (∀ s link, bonds (rt link) = [] → index_link s link = s)
  ∧ r.2 = map note_first_bond (filter multi_bond values).
Proof.
  cbv zeta.
  assert (∀ lh0,
    map snd (links (index_chem_links monlib lh0).1)
    = (map snd (links lh0) ++ filter retained (map snd (monlib_links monlib)))%list)
    as Hlinks.
  { intros lh0.
    destruct (index_chem_links_fields monlib lh0) as (_ & -> & _ & _).
    destruct (fold_index_link (map snd (monlib_links monlib)) lh0 [])
      as (-> & _ & _).
    by rewrite map_app, omap_link_entry_retained. }
  split; [apply Hlinks|]. split; [|split].
  - intros link. rewrite Hlinks. cbn [links LinkHunt_init map app].
    rewrite list_elem_of_filter. tauto.
  - intros [lh0 err] link Hb. unfold index_link. by rewrite Hb.
  - destruct (index_chem_links_fields monlib lh) as (_ & _ & _ & ->).
    destruct (fold_index_link (map snd (monlib_links monlib)) lh [])
      as (_ & -> & _). done.
Qed.

(** C9, as the code has it. After [index_chem_links], [global_max_dist] is
    the largest of its value before the call, which is 2.34 in a fresh
    [LinkHunt], and of the first-bond lengths of the rules that the call
    retains; [find_possible_links] builds its spatial index with the cutoff
    [std::max(5.0, global_max_dist * bond_margin)]: the product when it
    exceeds 5, and 5 otherwise. *)
Theorem C9_global_max_dist_and_cutoff (monlib : MonLib) (lh0 : LinkHunt) :
  let lh := (index_chem_links monlib lh0).1 in
  let vals := (global_max_dist lh0
               :: map first_bond_value
                      (filter retained (map snd (monlib_links monlib))))%Q in
  In (global_max_dist lh) vals
  ∧ Forall (fun v => (v <= global_max_dist lh)%Q) vals
  ∧ global_max_dist LinkHunt_init = 2.34%Q
  ∧ ∀ model c bond_margin,
      let cutoff := sc_cutoff (build_index lh model c bond_margin) in
      cutoff = std_max 5.0 (global_max_dist lh * bond_margin)
      ∧ ((5.0 < global_max_dist lh * bond_margin)%Q →
         cutoff = (global_max_dist lh * bond_margin)%Q)
      ∧ ((global_max_dist lh * bond_margin <= 5.0)%Q → cutoff = 5.0%Q).
Proof.
  cbv zeta.
  destruct (index_chem_links_fields monlib lh0) as (Hg & _ & _ & _).
  cbv zeta in Hg.
  destruct (fold_index_link_global_max_dist (map snd (monlib_links monlib))
              lh0 []) as [Hin Hall].
  cbv zeta in Hin, Hall. rewrite <- Hg in Hin, Hall.
  split; [exact Hin|]. split; [exact Hall|]. split; [reflexivity|].
  intros model c bm.
  destruct (std_max_spec 5.0
              (global_max_dist (index_chem_links monlib lh0).1 * bm))
    as (H1 & H2 & _).
  split; [reflexivity|]. split; assumption.
Qed.

(** What [max_dist_per_atom] holds after indexing a dictionary from a fresh
    [LinkHunt]: the first endpoints of the first bonds of the retained
    rules, and nothing else. *)
Lemma max_dist_per_atom_keys (monlib : MonLib) (k : string) :
  is_Some (max_dist_per_atom (index_chem_links monlib LinkHunt_init).1 !! k)
  ↔ ∃ link, link ∈ map snd (monlib_links monlib) ∧ retained link
            ∧ first_bond_id1 link = Some k.
Proof.
  destruct (index_chem_links_fields monlib LinkHunt_init) as (_ & _ & -> & _).
  rewrite fold_index_link_keys. cbn [max_dist_per_atom LinkHunt_init].
  rewrite lookup_empty. split; [|by right].
  intros [[? [=]]|H]. done.
Qed.

(** C3, at the failing input. The dictionary holds the single rule ZN-CYS
    with the bond ZN-SG of length 2.3: the rule is retained and SG is the
    second endpoint of its first bond, yet [max_dist_per_atom] has no entry
    for SG (only ZN, the first endpoint, is indexed), so that an atom named
    SG is skipped as a query atom. *)
Theorem C3_second_endpoint_not_indexed :
  retained link_ZN_CYS
  ∧ first_bond_id1 link_ZN_CYS = Some "ZN"
  ∧ first_bond_id2 link_ZN_CYS = Some "SG"
  ∧ max_dist_per_atom lh_zn !! "ZN" = Some 2.3%Q
  ∧ max_dist_per_atom lh_zn !! "SG" = None
  ∧ ∀ sc model bm rm n_ch n_res n_atom res,
      links_of_atom lh_zn sc model bm rm n_ch n_res n_atom res at_sg = [].
Proof.
  split; [|split; [|split; [|split; [|split]]]].
  - split; [cbn; lia|]. unfold too_generic. cbn. intros [[[=] _] _].
  - reflexivity.
  - reflexivity.
  - vm_compute. reflexivity.
  - vm_compute. reflexivity.
  - intros. unfold links_of_atom.
    assert (max_dist_per_atom lh_zn !! name at_sg = None) as ->
      by (vm_compute; reflexivity).
    reflexivity.
Qed.

(** ** Properties of the visitor *)

(** When a rule is accepted, in the words of the three tests of the loop. *)
Lemma accepted_order_Some lh bm res atm cres catm d link order1 :
  accepted_order lh bm res atm cres catm d link = Some order1 ↔
  ∃ bond bs,
    bonds (rt link) = bond :: bs
    ∧ (d <= sq (value bond * bm))%Q
    ∧ link_order lh link bond res atm cres = Some order1
    ∧ ¬ Exists (contradicted (chir_res1 res cres order1)
                             (chir_res2 res cres order1) (chir_alt atm catm))
               (chirs (rt link)).
Proof.
  unfold accepted_order. destruct (bonds (rt link)) as [|bond bs].
  - split; [done | by intros (? & ? & ? & _)].
  - destruct (Qle_bool d (sq (value bond * bm))) eqn:Ed.
    + apply Qle_bool_iff in Ed.
      destruct (link_order lh link bond res atm cres) as [o|] eqn:Eo.
      * pose proof (chirality_score_negative link res atm cres catm o) as Hn.
        rewrite Z.ltb_antisym, negb_true_iff in Hn.
        destruct (0 <=? chirality_score link res atm cres catm o)%Z eqn:Es.
        -- split.
           ++ intros [= <-]. exists bond, bs. repeat split; try done.
              intros Hex. apply Hn in Hex. done.
           ++ intros (b' & bs' & Hb & _ & Ho & _). by simplify_eq.
        -- split; [done|].
           intros (b' & bs' & Hb & _ & Ho & Hex). simplify_eq.
           exfalso. apply Hex, Hn. done.
      * split; [done|]. intros (b' & bs' & Hb & _ & Ho & _). by simplify_eq.
    + split; [done|]. intros (b' & bs' & Hb & Hle & _). simplify_eq.
      apply Qle_bool_iff in Hle. rewrite Hle in Ed. done.
Qed.

(** C6. For a rule that reaches the chirality check (it has a bond, the
    distance is within its margin and an orientation matches): a chirality
    whose expected sign is "both" or whose four atoms do not all resolve
    leaves the score as it is; each chirality whose volume contradicts its
    expected sign takes one from the score; and the rule is rejected (the
    match is left unchanged) exactly when at least one chirality is
    contradicted, which is when the score ends negative. *)
Theorem C6_chirality_gate lh bm (q : CRA) res atm (c : CRA) cres catm d mt
  link bond bs order1 :
  bonds (rt link) = bond :: bs →
  Qgtb d (sq (value bond * bm)) = false →
  link_order lh link bond res atm cres = Some order1 →
  let res1 := chir_res1 res cres order1 in
  let res2 := chir_res2 res cres order1 in
  let alt := chir_alt atm catm in
  (∀ score chirality,
     chir chirality = Both ∨ resolved res1 res2 alt chirality = None →
     chirality_step res atm cres catm order1 score chirality = score)
  ∧ (∀ score chirality,
       contradicted res1 res2 alt chirality →
       chirality_step res atm cres catm order1 score chirality = (score - 1)%Z)
  ∧ (∀ score chirality,
       ¬ contradicted res1 res2 alt chirality →
       chirality_step res atm cres catm order1 score chirality = score)
  ∧ chirality_score link res atm cres catm order1
    = (- Z.of_nat (length (filter (λ x, contradictedb res1 res2 alt x = true)
                                  (chirs (rt link)))))%Z
  ∧ ((chirality_score link res atm cres catm order1 <? 0)%Z = true
     ↔ Exists (contradicted res1 res2 alt) (chirs (rt link)))
  ∧ (try_link lh bm q res atm c cres catm d mt link = mt
     ↔ Exists (contradicted res1 res2 alt) (chirs (rt link))).
Proof.
  intros Hb Hd Ho res1 res2 alt.
  split; [|split; [|split; [|split; [|split]]]].
  - intros score ch Hskip. rewrite chirality_step_spec. fold res1 res2 alt.
    destruct (contradictedb res1 res2 alt ch) eqn:E; [|done].
    apply contradictedb_spec in E as [Hne (a1 & a2 & a3 & a4 & Hr & _)].
    destruct Hskip as [Hboth|Hnone]; [done | by rewrite Hnone in Hr].
  - intros score ch Hc. rewrite chirality_step_spec. fold res1 res2 alt.
    apply contradictedb_spec in Hc. by rewrite Hc.
  - intros score ch Hc. rewrite chirality_step_spec. fold res1 res2 alt.
    destruct (contradictedb res1 res2 alt ch) eqn:E; [|done].
    apply contradictedb_spec in E. done.
  - apply chirality_score_spec.
  - apply chirality_score_negative.
  - pose proof (chirality_score_negative link res atm cres catm order1) as Hn.
    fold res1 res2 alt in Hn. rewrite <- Hn. clear Hn.
    rewrite try_link_spec. unfold accepted_order. rewrite Hb.
    unfold Qgtb in Hd. apply negb_false_iff in Hd. rewrite Hd, Ho.
    rewrite Z.ltb_antisym.
    destruct (0 <=? chirality_score link res atm cres catm order1)%Z; cbn.
    + split; [|done]. unfold accept. intros Heq.
      apply (f_equal chem_link_count) in Heq. cbn in Heq. lia.
    + done.
Qed.

(** C7. When the rules accepted for a candidate pair are [acc], in the
    order of the table, and [link] is the last of them, accepted in
    orientation [order1], the record pushed has [chem_link = link],
    [chem_link_count] the number of accepted rules, and its two atoms in
    the order of the sides of [link]: the query atom first when [order1],
    the candidate first otherwise. *)
Theorem C7_last_accepted_rule_wins lh model bm rm n_ch n_res n_atom res atm
  m d cres catm link order1 :
  inside_residue n_ch n_res m = false →
  reported_twice n_ch n_res n_atom m = false →
  image_too_close n_ch n_res n_atom m d = false →
  cra_residue_of model (to_cra m) = Some cres →
  cra_atom_of model (to_cra m) = Some catm →
  let q := mkCRA n_ch n_res n_atom in
  let acc := filter (accepted lh bm res atm cres catm d)
               (equal_range (links lh)
                  (lexicographic_str (name atm) (name catm))) in
  last acc = Some link →
  accepted_order lh bm res atm cres catm d link = Some order1 →
  visit lh model bm rm n_ch n_res n_atom res atm m d
  = Some (mkMatch (Some link) (Z.of_nat (length acc))
            (if order1 then Some q else Some (to_cra m))
            (if order1 then Some (to_cra m) else Some q)
            (Nat.eqb (image_idx m) 0) (fsqrt d) None).
Proof.
  intros H1 H2 H3 Hr Ha q acc Hl Ho. apply visit_Some.
  repeat split; try done. exists cres, catm. repeat split; try done.
  left. by exists link, order1.
Qed.

(** C4, as the code has it. The first rejection of the visitor fires if and
    only if the mark is in the asymmetric unit (image 0) and has the chain
    and residue indices of the query atom, whatever its atom index: every
    atom of the residue of the query atom is rejected, the query atom among
    them. So no record within the asymmetric unit joins two atoms of one
    residue, and no atom is matched with itself there. *)
Theorem C4_inside_residue_rejected (n_ch n_res n_atom : nat) (m : Mark) :
  (inside_residue n_ch n_res m = true
   ↔ image_idx m = 0%nat ∧ chain_idx m = n_ch ∧ residue_idx m = n_res)
  ∧ (∀ lh model bm rm res atm d,
       inside_residue n_ch n_res m = true →
       visit lh model bm rm n_ch n_res n_atom res atm m d = None)
  ∧ (∀ lh st bm rm results r c1 c2,
       find_possible_links lh st bm rm = inr results → r ∈ results →
       same_asu r = true → cra1 r = Some c1 → cra2 r = Some c2 →
       ¬ (cra_chain c1 = cra_chain c2 ∧ cra_residue c1 = cra_residue c2))
  ∧ (∀ lh st bm rm results r,
       find_possible_links lh st bm rm = inr results → r ∈ results →
       ¬ (same_asu r = true ∧ cra1 r = cra2 r)).
Proof.
  assert (inside_residue n_ch n_res m = true
          ↔ image_idx m = 0%nat ∧ chain_idx m = n_ch ∧ residue_idx m = n_res)
    as Hiff.
  { unfold inside_residue. rewrite !andb_true_iff, !Nat.eqb_eq. tauto. }
  assert (∀ lh st bm rm results r c1 c2,
       find_possible_links lh st bm rm = inr results → r ∈ results →
       same_asu r = true → cra1 r = Some c1 → cra2 r = Some c2 →
       ¬ (cra_chain c1 = cra_chain c2 ∧ cra_residue c1 = cra_residue c2))
    as Hres.
  { intros lh st bm rm results r c1 c2 Hf Hin Hs Hc1 Hc2 [Hch Hrs].
    apply find_possible_links_inr in Hf as (model & _ & ->).
    apply list_elem_of_fmap in Hin as (r0 & -> & Hin).
    apply scan_elem_of in Hin
      as (k_ch & chain & k_res & res & k_atom & atm & md & m' & d
          & _ & _ & _ & _ & _ & Hv).
    apply visit_endpoints in Hv as (He & _ & Hi & Hsame & _).
    cbn in Hs, Hc1, Hc2. rewrite Hsame in Hs.
    unfold inside_residue in Hi. rewrite Hs in Hi. cbn [andb] in Hi.
    unfold endpoints in He. rewrite Hc1, Hc2 in He.
    destruct He as [[[= ->] [= ->]]|[[= ->] [= ->]]]; cbn in Hch, Hrs;
      rewrite Hch, Hrs, !Nat.eqb_refl in Hi; done. }
  split; [exact Hiff|]. split; [|split; [exact Hres|]].
  - intros lh model bm rm res atm d Hi. unfold visit. by rewrite Hi.
  - intros lh st bm rm results r Hf Hin [Hs Heq].
    destruct (cra1 r) as [c1|] eqn:E1.
    + by apply (Hres lh st bm rm results r c1 c1 Hf Hin Hs E1).
    + apply find_possible_links_inr in Hf as (model & _ & ->).
      apply list_elem_of_fmap in Hin as (r0 & -> & Hin).
      apply scan_elem_of in Hin
        as (k_ch & chain & k_res & res & k_atom & atm & md & m' & d
            & _ & _ & _ & _ & _ & Hv).
      apply visit_endpoints in Hv as (He & _).
      cbn in E1. unfold endpoints in He. rewrite E1 in He.
      by destruct He as [[? _]|[? _]].
Qed.

(** C5. A mark of the query atom itself in a symmetry image, at the
    distance [dist] from it ([dist_sq] is its square, as [for_each] passes
    it): the third rejection fires exactly when [dist] is below 0.8, and
    the visitor then pushes nothing (the atom is taken to be on a special
    position). When [dist] is 0.8 or more none of the three rejections
    fires and the visitor goes on to the rules and to the covalent radii:
    it pushes a record exactly when the atom resolves in the model and a
    rule is accepted for the pair or the distance is within the covalent
    radii, and that record names the query atom twice, outside the
    asymmetric unit. *)
Theorem C5_own_image_too_close lh model bm rm n_ch n_res n_atom res atm m
  (dist_sq : Q) :
  to_cra m = mkCRA n_ch n_res n_atom →
  image_idx m ≠ 0%nat →
  let dist := sqrt (Q2R dist_sq) in
  let q := mkCRA n_ch n_res n_atom in
  ((dist < 0.8)%R ↔ image_too_close n_ch n_res n_atom m dist_sq = true)
  ∧ ((dist < 0.8)%R →
     visit lh model bm rm n_ch n_res n_atom res atm m dist_sq = None)
  ∧ ((0.8 <= dist)%R →
       inside_residue n_ch n_res m = false
       ∧ reported_twice n_ch n_res n_atom m = false
       ∧ image_too_close n_ch n_res n_atom m dist_sq = false
       ∧ ∀ r,
           visit lh model bm rm n_ch n_res n_atom res atm m dist_sq = Some r
           ↔ ∃ cres catm,
               cra_residue_of model q = Some cres
               ∧ cra_atom_of model q = Some catm
               ∧ let acc := filter (accepted lh bm res atm cres catm dist_sq)
                              (equal_range (links lh)
                                 (lexicographic_str (name atm) (name catm))) in
                 (∃ link order1,
                     last acc = Some link
                     ∧ accepted_order lh bm res atm cres catm dist_sq link
                       = Some order1
                     ∧ r = mkMatch (Some link) (Z.of_nat (length acc))
                             (Some q) (Some q) false (fsqrt dist_sq) None)
                 ∨ (acc = []
                    ∧ (dist_sq <= sq ((covalent_r (element atm)
                                       + covalent_r (element catm)) * rm))%Q
                    ∧ r = mkMatch None 0 (Some q) (Some q) false
                            (fsqrt dist_sq) None)).
Proof.
  intros Hc Hi dist q.
  assert (inside_residue n_ch n_res m = false) as H1.
  { unfold inside_residue. apply Nat.eqb_neq in Hi. by rewrite Hi. }
  assert (reported_twice n_ch n_res n_atom m = false) as H2.
  { rewrite reported_twice_lex, Hc. apply CRA_ltb_irrefl. }
  assert (image_too_close n_ch n_res n_atom m dist_sq = Qltb dist_sq (sq 0.8))
    as H3.
  { unfold to_cra in Hc. injection Hc as Hch Hrs Hat.
    unfold image_too_close. by rewrite Hch, Hrs, Hat, !Nat.eqb_refl. }
  assert ((dist < 0.8)%R ↔ (dist_sq < sq 0.8)%Q) as Hdist
    by (apply (sqrt_lt_iff dist_sq 0.8); reflexivity).
  split; [|split].
  - rewrite H3, Qltb_lt. exact Hdist.
  - intros Hlt. apply Hdist, Qltb_lt in Hlt. rewrite <- H3 in Hlt.
    unfold visit. by rewrite H1, H2, Hlt.
  - intros Hge.
    assert (image_too_close n_ch n_res n_atom m dist_sq = false) as H4.
    { rewrite H3. apply not_true_is_false. intros Ht.
      apply Qltb_lt, Hdist in Ht. Lra.lra. }
    do 3 (split; [done|]). intros r. rewrite visit_Some, Hc. fold q.
    assert (Nat.eqb (image_idx m) 0 = false) as -> by by apply Nat.eqb_neq.
    split.
    + intros (_ & _ & _ & cres & catm & Hr & Ha & Hcase).
      exists cres, catm. do 2 (split; [done|]). cbv zeta in Hcase. cbv zeta.
      destruct Hcase as [(link & o & Hl & Ho & ->)|(Hnil & Hg & ->)].
      * left. exists link, o. do 2 (split; [done|]). by destruct o.
      * right. split; [done|]. split; [by apply Qgtb_le | done].
    + intros (cres & catm & Hr & Ha & Hcase).
      do 3 (split; [done|]). exists cres, catm. do 2 (split; [done|]).
      cbv zeta in Hcase. cbv zeta.
      destruct Hcase as [(link & o & Hl & Ho & ->)|(Hnil & Hg & ->)].
      * left. exists link, o. do 2 (split; [done|]). by destruct o.
      * right. split; [done|]. split; [by apply Qgtb_le | done].
Qed.

(** C10, as the code has it. Without a model, [models.at(0)] throws
    [std::out_of_range]; with a first model whose chain list is empty the
    result is the empty list. *)
Theorem C10_no_model_no_chain lh (st : Structure) bm rm :
  (models st = [] → find_possible_links lh st bm rm = inl out_of_range)
  ∧ (∀ model rest,
       models st = model :: rest → chains model = [] →
       find_possible_links lh st bm rm = inr []).
Proof.
  split.
  - intros H. unfold find_possible_links. by rewrite H.
  - intros model rest H Hc. unfold find_possible_links. rewrite H. cbn.
    unfold scan. by rewrite Hc.
Qed.

(** ** Counting records and marks *)

Lemma filter_nil_Forall {A : Type} (P : A → Prop) `{∀ x, Decision (P x)}
  (l : list A) :
  (∀ x, x ∈ l → ¬ P x) → filter P l = [].
Proof.
  induction l as [|x l IH]; intros Hl; [done|].
  rewrite filter_cons_False by (apply Hl; left).
  apply IH. intros y Hy. apply Hl. by right.
Qed.

Lemma omap_filter_length {A B : Type} (f : A → option B)
  (P : B → Prop) `{∀ y, Decision (P y)} (Q : A → Prop) `{∀ x, Decision (Q x)}
  (l : list A) :
  (∀ x y, f x = Some y → P y → Q x) →
  (length (filter P (omap f l)) ≤ length (filter Q l))%nat.
Proof.
  intros Hf. induction l as [|x l IH]; [done|].
  cbn [omap list_omap]. rewrite (filter_cons Q).
  destruct (f x) as [y|] eqn:E.
  - rewrite filter_cons. destruct (decide (P y)) as [Hp|Hp].
    + rewrite decide_True by (by apply (Hf x y)). cbn [length]. lia.
    + destruct (decide (Q x)); cbn [length]; lia.
  - destruct (decide (Q x)); cbn [length]; lia.
Qed.

Lemma fmap_filter_length {A B : Type} (f : A → B)
  (P : B → Prop) `{∀ y, Decision (P y)} (Q : A → Prop) `{∀ x, Decision (Q x)}
  (l : list A) :
  (∀ x, P (f x) → Q x) →
  (length (filter P (map f l)) ≤ length (filter Q l))%nat.
Proof.
  intros Hf. induction l as [|x l IH]; [done|].
  cbn [map]. rewrite (filter_cons Q), filter_cons.
  destruct (decide (P (f x))) as [Hp|Hp].
  - rewrite decide_True by (by apply Hf). cbn [length]. lia.
  - destruct (decide (Q x)); cbn [length]; lia.
Qed.

Lemma endpoints_sym r a b : endpoints r a b ↔ endpoints r b a.
Proof. unfold endpoints. tauto. Qed.

(** A record with the atoms [a] and [b], [a] not after [b], was pushed
    while [a] was the query atom, by a mark of [b]. *)
Lemma visit_endpoints_query lh model bm rm n_ch n_res n_atom res atm m d r a b :
  visit lh model bm rm n_ch n_res n_atom res atm m d = Some r →
  endpoints r a b → CRA_ltb b a = false →
  mkCRA n_ch n_res n_atom = a ∧ to_cra m = b.
Proof.
  intros Hv He Hab. apply visit_endpoints in Hv as (Hq & Hlt & _).
  unfold endpoints in He, Hq.
  destruct Hq as [[Hq1 Hq2]|[Hq1 Hq2]], He as [[He1 He2]|[He1 He2]];
    rewrite Hq1 in He1; rewrite Hq2 in He2; simplify_eq; try done.
  all: pose proof (CRA_ltb_total _ _ Hlt Hab) as Heq; by rewrite Heq.
Qed.

Lemma links_of_atom_for_each lh sc model bm rm n_ch n_res n_atom res atm :
  links_of_atom lh sc model bm rm n_ch n_res n_atom res atm
  = match max_dist_per_atom lh !! name atm with
    | None => []
    | Some max_dist =>
        omap (λ m,
                let d := squared_distance (pos atm) (mark_pos m) in
                if Qle_bool d (sq max_dist)
                   && is_same_conformer (altloc atm) (mark_altloc m)
                then visit lh model bm rm n_ch n_res n_atom res atm m d
                else None)
             (sc_marks sc)
    end.
Proof.
  unfold links_of_atom, for_each.
  destruct (max_dist_per_atom lh !! name atm) as [md|]; [|done].
  induction (sc_marks sc) as [|m l IH]; [done|].
  cbn [omap list_omap]. cbv zeta.
  destruct (Qle_bool _ _ && _); cbn [omap list_omap fst snd]; by rewrite IH.
Qed.

(** The records of a scan between two atoms are no more than the marks of
    the later of the two in the index. *)
Lemma scan_pair_count lh sc model bm rm (a b : CRA)
  (Pr : Match → Prop) `{∀ r, Decision (Pr r)}
  (Pm : Mark → Prop) `{∀ m, Decision (Pm m)} :
  (∀ n_ch n_res n_atom res atm m d r,
     visit lh model bm rm n_ch n_res n_atom res atm m d = Some r →
     Pr r → Pm m) →
  CRA_ltb b a = false →
  (length (filter (λ r, endpoints r a b ∧ Pr r) (scan lh sc model bm rm))
   ≤ length (filter (λ m, to_cra m = b ∧ Pm m) (sc_marks sc)))%nat.
Proof.
  intros HP Hab. rewrite scan_scan3.
  apply (scan3_filter_length _ model _ a).
  - intros n_ch n_res n_atom res atm Hne. apply filter_nil_Forall.
    intros r Hr [He _].
    apply links_of_atom_elem_of in Hr as (md & m & d & _ & _ & Hv).
    by destruct (visit_endpoints_query _ _ _ _ _ _ _ _ _ _ _ _ _ _ Hv He Hab).
  - intros res atm. rewrite links_of_atom_for_each.
    destruct (max_dist_per_atom lh !! name atm) as [md|]; [|cbn; lia].
    apply omap_filter_length. intros m r Hm [He Hp]. cbv zeta in Hm.
    destruct (Qle_bool _ _ && _); [|done].
    split; [|by eapply HP].
    by destruct (visit_endpoints_query _ _ _ _ _ _ _ _ _ _ _ _ _ _ Hm He Hab).
Qed.

(** ** The marks of the index *)

Lemma build_index_marks lh model c bm :
  sc_marks (build_index lh model c bm)
  = scan3 model (λ n_ch n_res n_atom _ a, atom_marks c n_ch n_res n_atom a).
Proof. reflexivity. Qed.

Lemma image_marks_spec k ops n_ch n_res n_atom a m :
  m ∈ image_marks k ops n_ch n_res n_atom a →
  to_cra m = mkCRA n_ch n_res n_atom ∧ (k ≤ image_idx m)%nat
  ∧ mark_altloc m = altloc a ∧ mark_element m = element a.
Proof.
  revert k. induction ops as [|op ops IH]; intros k; cbn [image_marks].
  - by intros H%elem_of_nil.
  - intros [->|H]%elem_of_cons; [done|].
    destruct (IH _ H) as (? & ? & ? & ?). repeat split; try done. lia.
Qed.

Lemma length_image_marks k ops n_ch n_res n_atom a :
  length (image_marks k ops n_ch n_res n_atom a) = length ops.
Proof.
  revert k. induction ops as [|op ops IH]; intros k; cbn; [done|].
  by rewrite IH.
Qed.

Lemma atom_marks_spec c n_ch n_res n_atom a m :
  m ∈ atom_marks c n_ch n_res n_atom a →
  to_cra m = mkCRA n_ch n_res n_atom
  ∧ mark_altloc m = altloc a ∧ mark_element m = element a.
Proof.
  unfold atom_marks. intros [->|H]%elem_of_cons; [done|].
  by destruct (image_marks_spec _ _ _ _ _ _ _ H) as (? & _ & ? & ?).
Qed.

(** Every mark of the index that [find_possible_links] builds designates an
    atom of the model, with the altloc and the element of that atom. *)
Lemma build_index_marks_resolve lh model c bm m :
  m ∈ sc_marks (build_index lh model c bm) →
  ∃ res a, cra_residue_of model (to_cra m) = Some res
           ∧ cra_atom_of model (to_cra m) = Some a
           ∧ mark_altloc m = altloc a ∧ mark_element m = element a.
Proof.
  rewrite build_index_marks, scan3_elem_of.
  intros (n_ch & chain & n_res & res & n_atom & a & Hc & Hr & Ha & Hm).
  apply atom_marks_spec in Hm as (Hcra & Halt & Hel).
  exists res, a. unfold cra_atom_of, cra_residue_of. rewrite Hcra. cbn.
  by rewrite Hc, Hr.
Qed.

(** An atom has one mark for each image, one of them in the asymmetric
    unit. *)
Lemma build_index_marks_count lh model c bm (b : CRA) :
  (length (filter (λ m, to_cra m = b ∧ True)
                  (sc_marks (build_index lh model c bm)))
   ≤ S (length (images c)))%nat
  ∧ (length (filter (λ m, to_cra m = b ∧ image_idx m = 0%nat)
                    (sc_marks (build_index lh model c bm))) ≤ 1)%nat.
Proof.
  rewrite build_index_marks. split.
  - apply (scan3_filter_length _ model _ b).
    + intros n_ch n_res n_atom res a Hne. apply filter_nil_Forall.
      intros m Hm [Hb _]. apply atom_marks_spec in Hm as (Hcra & _). congruence.
    + intros res a. etrans; [apply length_filter|].
      unfold atom_marks. cbn [length]. by rewrite length_image_marks.
  - apply (scan3_filter_length _ model _ b).
    + intros n_ch n_res n_atom res a Hne. apply filter_nil_Forall.
      intros m Hm [Hb _]. apply atom_marks_spec in Hm as (Hcra & _). congruence.
    + intros res a. unfold atom_marks. rewrite filter_cons.
      rewrite (filter_nil_Forall _ (image_marks _ _ _ _ _ _)).
      * destruct (decide _); cbn [length]; lia.
      * intros m Hm [_ Hi]. apply image_marks_spec in Hm as (_ & Hk & _). lia.
Qed.

(** ** Properties of the result of [find_possible_links] *)

Lemma results_pair_count lh model c bm rm (a b : CRA) :
  CRA_ltb b a = false →
  let results := map (attach_conn model)
                     (scan lh (build_index lh model c bm) model bm rm) in
  (length (filter (λ r, endpoints r a b) results) ≤ S (length (images c)))%nat
  ∧ (length (filter (λ r, endpoints r a b ∧ same_asu r = true) results)
     ≤ 1)%nat.
Proof.
  intros Hab results. subst results. split.
  - etrans; [apply (fmap_filter_length _ _ (λ r, endpoints r a b ∧ True))|].
    { intros r He. split; [exact He | exact I]. }
    etrans; [apply (scan_pair_count _ _ _ _ _ a b (λ _, True) (λ _, True))|];
      [done | done |].
    apply build_index_marks_count.
  - etrans; [apply (fmap_filter_length _ _
                      (λ r, endpoints r a b ∧ same_asu r = true))|].
    { intros r He. exact He. }
    etrans; [apply (scan_pair_count _ _ _ _ _ a b (λ r, same_asu r = true)
                      (λ m, image_idx m = 0%nat))|]; [|done|].
    + intros n_ch n_res n_atom res atm m d r Hv Hs.
      apply visit_endpoints in Hv as (_ & _ & _ & Hsame & _).
      rewrite Hsame in Hs. by apply Nat.eqb_eq.
    + apply build_index_marks_count.
Qed.

(** C1, as the code has it. A mark whose index triple is lexicographically
    before that of the query atom is rejected, so the records between two
    atoms are pushed only while the earlier of the two is the query atom,
    one at most for each mark of the later one in the index: for every
    pair of atoms there are no more records than the cell has images (the
    asymmetric unit counted), one record at most within the asymmetric
    unit, and one at most in all when the cell has no symmetry image. *)
Theorem C1_pair_reported_once_per_image lh st bm rm results (a b : CRA) :
  find_possible_links lh st bm rm = inr results →
  (∀ model n_ch n_res n_atom res atm m d,
     CRA_ltb (to_cra m) (mkCRA n_ch n_res n_atom) = true →
     visit lh model bm rm n_ch n_res n_atom res atm m d = None)
  ∧ (CRA_ltb b a = false →
     ∃ model,
       models st !! 0%nat = Some model
       ∧ (length (filter (λ r, endpoints r a b) results)
          ≤ length (filter (λ m, to_cra m = b)
                           (sc_marks (build_index lh model (cell st) bm))))%nat)
  ∧ (length (filter (λ r, endpoints r a b) results)
     ≤ S (length (images (cell st))))%nat
  ∧ (length (filter (λ r, endpoints r a b ∧ same_asu r = true) results)
     ≤ 1)%nat
  ∧ (images (cell st) = [] →
     (length (filter (λ r, endpoints r a b) results) ≤ 1)%nat).
Proof.
  intros Hf. apply find_possible_links_inr in Hf as (model & Hm & ->).
  assert ((length (filter (λ r, endpoints r a b)
             (map (attach_conn model)
                (scan lh (build_index lh model (cell st) bm) model bm rm)))
           ≤ S (length (images (cell st))))%nat
          ∧ (length (filter (λ r, endpoints r a b ∧ same_asu r = true)
               (map (attach_conn model)
                  (scan lh (build_index lh model (cell st) bm) model bm rm)))
             ≤ 1)%nat) as [Hall Hasu].
  { destruct (CRA_ltb b a) eqn:Hab.
    - apply CRA_ltb_asym in Hab.
      destruct (results_pair_count lh model (cell st) bm rm b a Hab) as [H1 H2].
      cbv zeta in H1, H2.
      rewrite (list_filter_iff (λ r, endpoints r a b) (λ r, endpoints r b a))
        by (intros; apply endpoints_sym).
      rewrite (list_filter_iff (λ r, endpoints r a b ∧ same_asu r = true)
                               (λ r, endpoints r b a ∧ same_asu r = true))
        by (intros r; rewrite (endpoints_sym r a b); done).
      done.
    - apply (results_pair_count lh model (cell st) bm rm a b Hab). }
  split; [|split; [|split; [exact Hall | split; [exact Hasu|]]]].
  - intros model' n_ch n_res n_atom res atm m d Hlt. unfold visit.
    rewrite reported_twice_lex, Hlt. by destruct (inside_residue n_ch n_res m).
  - intros Hab. exists model. split; [exact Hm|].
    etrans; [apply (fmap_filter_length _ _ (λ r, endpoints r a b ∧ True))|].
    { intros r He. split; [exact He | exact I]. }
    etrans; [apply (scan_pair_count _ _ _ _ _ a b (λ _, True) (λ _, True))|];
      [done | done |].
    rewrite (list_filter_iff (λ m, to_cra m = b ∧ True) (λ m, to_cra m = b))
      by (intros; tauto).
    done.
  - intros Hnil. rewrite Hnil in Hall. exact Hall.
Qed.

(** C2, as the code has it. Every record comes from a query atom and a mark
    of the index; its [bond_length] is [std::sqrt] of the squared distance
    [d] between the position of the atom and the (possibly transformed)
    position of the mark, and [d] is at most the square of
    [bond.value * bond_margin] for the first bond of the rule stored in
    the record, or of [(r1 + r2) * radius_margin] when no rule is stored.
    With [std::sqrt] the square root of the real numbers, [bond_length] is
    the Euclidean distance of the two positions: it is not negative, its
    square is [d], and it is at most the absolute value of that product,
    hence at most the product itself whenever the product is not
    negative. *)
Theorem C2_bond_length_bounds lh st bm rm results r :
  (∀ x, fsqrt x = sqrt (Q2R x)) →
  find_possible_links lh st bm rm = inr results → r ∈ results →
  ∃ model q atm m catm,
    models st !! 0%nat = Some model
    ∧ cra_atom_of model q = Some atm
    ∧ m ∈ sc_marks (build_index lh model (cell st) bm)
    ∧ cra_atom_of model (to_cra m) = Some catm
    ∧ endpoints r q (to_cra m)
    ∧ let d := squared_distance (pos atm) (mark_pos m) in
      let radii := (covalent_r (element atm) + covalent_r (element catm))%Q in
      bond_length r = sqrt (Q2R d)
      ∧ (0 <= bond_length r)%R
      ∧ (bond_length r * bond_length r = Q2R d)%R
      ∧ (∀ link, chem_link r = Some link →
           ∃ bond bs,
             bonds (rt link) = bond :: bs
             ∧ (d <= sq (value bond * bm))%Q
             ∧ (bond_length r <= Rabs (Q2R (value bond * bm)))%R
             ∧ ((0 <= value bond * bm)%Q →
                (bond_length r <= Q2R (value bond * bm))%R))
      ∧ (chem_link r = None →
           (d <= sq (radii * rm))%Q
           ∧ (bond_length r <= Rabs (Q2R (radii * rm)))%R
           ∧ ((0 <= radii * rm)%Q → (bond_length r <= Q2R (radii * rm))%R)).
Proof.
  intros Hsqrt Hf Hin.
  apply find_possible_links_inr in Hf as (model & Hm & ->).
  apply list_elem_of_fmap in Hin as (r0 & -> & Hin).
  apply scan_elem_of in Hin
    as (n_ch & chain & n_res & res & n_atom & atm & md & m & d
        & Hc & Hr & Ha & _ & Hfe & Hv).
  apply for_each_elem_of in Hfe as (Hmark & Hd & _ & _).
  pose proof (visit_endpoints _ _ _ _ _ _ _ _ _ _ _ _ Hv)
    as (He & _ & _ & _ & Hbl).
  apply visit_Some in Hv as (_ & _ & _ & cres & catm & _ & Hcatm & Hcase).
  cbv zeta in Hcase.
  exists model, (mkCRA n_ch n_res n_atom), atm, m, catm.
  split; [exact Hm|]. split.
  { unfold cra_atom_of, cra_residue_of. cbn. by rewrite Hc, Hr. }
  split; [exact Hmark|]. split; [exact Hcatm|]. split; [exact He|].
  cbv zeta. rewrite <- Hd.
  assert (bond_length (attach_conn model r0) = sqrt (Q2R d)) as Hlen
    by (rewrite <- Hsqrt; exact Hbl).
  assert (0 <= d)%Q as Hpos by (rewrite Hd; apply squared_distance_nonneg).
  assert (0 <= Q2R d)%R as HposR
    by (rewrite <- Q2R_zero; by apply Qle_Rle).
  split; [exact Hlen|]. rewrite Hlen.
  split; [apply sqrt_pos|]. split; [by apply sqrt_sqrt|]. split.
  - intros link Hl.
    destruct Hcase as [(link' & o & Hlast & Ho & ->)|(_ & _ & ->)]; [|done].
    cbn in Hl. injection Hl as ->.
    apply accepted_order_Some in Ho as (bond & bs & Hb & Hle & _).
    exists bond, bs. split; [done|]. split; [done|].
    split; [by apply sqrt_le_abs|]. intros Hnn. by apply sqrt_le_nonneg.
  - intros Hl.
    destruct Hcase as [(link' & o & Hlast & Ho & ->)|(_ & Hg & ->)]; [done|].
    apply Qgtb_le in Hg. split; [done|].
    split; [by apply sqrt_le_abs|]. intros Hnn. by apply sqrt_le_nonneg.
Qed.


(** ** Further properties of [index_chem_links] *)

Lemma index_residue_info_res_group lh ri :
  res_group (index_residue_info lh ri)
  = res_group lh ∪ {[ ri.1 := residue_group ri.2 ]}.
Proof.
  apply map_eq. intros k. cbn [index_residue_info res_group].
  rewrite lookup_union. fold (residue_group ri.2).
  destruct (res_group lh !! ri.1) as [g|] eqn:E.
  - destruct (decide (ri.1 = k)) as [<-|Hne].
    + rewrite E, lookup_singleton_eq. done.
    + rewrite lookup_singleton_ne by done. by destruct (res_group lh !! k).
  - destruct (decide (ri.1 = k)) as [<-|Hne].
    + rewrite lookup_insert_eq, E, lookup_singleton_eq. done.
    + rewrite lookup_insert_ne, lookup_singleton_ne by done.
      by destruct (res_group lh !! k).
Qed.

Lemma fold_index_residue_info_res_group ris lh :
  res_group (fold_left index_residue_info ris lh)
  = res_group lh
    ∪ (residue_group <$> (list_to_map ris : gmap string ResidueInfo)).
Proof.
  revert lh. induction ris as [|[k ri] ris IH]; intros lh.
  - cbn. by rewrite fmap_empty, (right_id_L ∅ (∪)).
  - cbn [fold_left]. rewrite IH, index_residue_info_res_group.
    cbn [fst snd list_to_map foldr]. rewrite fmap_insert.
    rewrite <- (assoc_L (∪)). f_equal.
    by rewrite insert_union_singleton_l.
Qed.

Lemma index_chem_links_res_group monlib lh :
  res_group (index_chem_links monlib lh).1
  = res_group lh
    ∪ (residue_group <$>
         (list_to_map (residue_infos monlib) : gmap string ResidueInfo)).
Proof.
  unfold index_chem_links.
  destruct (fold_index_link (map snd (monlib_links monlib)) lh [])
    as (_ & _ & Hrg).
  destruct (fold_left index_link _ _) as [lh1 err]. cbn [fst snd] in *.
  by rewrite fold_index_residue_info_res_group, Hrg.
Qed.

(** X8. The groups of residues after [index_chem_links]: an entry that was
    there before the call is kept, and every other residue name of the
    dictionary gets the group of its first [ResidueInfo]: Peptide for an
    amino acid, else DnaRna for a nucleic acid, else Pyranose for the kind
    PYR, else Null. The rules of the dictionary have no part in it. *)
Theorem index_chem_links_groups (monlib : MonLib) (lh : LinkHunt)
  (resname : string) :
  res_group (index_chem_links monlib lh).1 !! resname
  = match res_group lh !! resname with
    | Some g => Some g
    | None =>
        residue_group <$>
          (list_to_map (residue_infos monlib) : gmap string ResidueInfo)
            !! resname
    end
  ∧ (∀ ri, is_amino_acid ri = true → residue_group ri = Peptide)
  ∧ (∀ ri, is_amino_acid ri = false → is_nucleic_acid ri = true →
           residue_group ri = DnaRna)
  ∧ (∀ ri, residue_group ri = Pyranose ↔
           is_amino_acid ri = false ∧ is_nucleic_acid ri = false
           ∧ kind_is_PYR ri = true).
Proof.
  split; [|split; [|split]].
  - rewrite index_chem_links_res_group, lookup_union, lookup_fmap.
    destruct (res_group lh !! resname); [|by rewrite (left_id None _)].
    by destruct (_ <$> _).
  - intros ri H. unfold residue_group. by rewrite H.
  - intros ri H1 H2. unfold residue_group. by rewrite H1, H2.
  - intros ri. unfold residue_group.
    destruct (is_amino_acid ri), (is_nucleic_acid ri), (kind_is_PYR ri);
      split; try done; intros (? & ? & ?); done.
Qed.

Lemma match_link_side_true lh side resname :
  match_link_side lh side resname = true ↔
  (comp side ≠ EmptyString ∧ comp side = resname)
  ∨ (comp side = EmptyString ∧ group side ≠ Null
     ∧ res_group lh !! resname = Some (group side)).
Proof.
  unfold match_link_side.
  destruct (String.eqb_spec (comp side) EmptyString) as [He|He]; cbn [negb].
  - destruct (Group_eqb (group side) Null) eqn:Eg.
    + apply Group_eqb_eq in Eg. split; [done|]. intros [[? _]|(_ & ? & _)]; done.
    + assert (group side ≠ Null) as Hg
        by (intros H; apply Group_eqb_eq in H; congruence).
      destruct (res_group lh !! resname) as [g|].
      * rewrite Group_eqb_eq. split.
        -- intros ->. right. done.
        -- intros [[? _]|(_ & _ & [= ->])]; done.
      * split; [done|]. intros [[? _]|(_ & _ & ?)]; done.
  - rewrite String.eqb_eq. split.
    + intros H. left. done.
    + intros [[_ H]|[H _]]; done.
Qed.

(** X9. Which residues a side of a rule matches, once the dictionary is
    indexed in a fresh [LinkHunt]: a side that names a component matches
    the residues of that name and no other, whatever their group; a side
    without a component matches a residue exactly when the side has a
    group other than Null and the dictionary classifies the residue name
    in that group. A residue name that the dictionary does not know, or
    classifies in no group, is matched by no side without a component. *)
Theorem match_link_side_after_index (monlib : MonLib) (side : Side)
  (resname : string) :
  let lh := (index_chem_links monlib LinkHunt_init).1 in
  let known : gmap string ResidueInfo := list_to_map (residue_infos monlib) in
  (match_link_side lh side resname = true ↔
   (comp side ≠ EmptyString ∧ comp side = resname)
   ∨ (comp side = EmptyString ∧ group side ≠ Null
      ∧ ∃ ri, known !! resname = Some ri ∧ residue_group ri = group side))
  ∧ (comp side = EmptyString →
     (known !! resname = None
      ∨ ∃ ri, known !! resname = Some ri ∧ residue_group ri = Null) →
     match_link_side lh side resname = false).
Proof.
  cbv zeta.
  assert (res_group (index_chem_links monlib LinkHunt_init).1 !! resname
          = residue_group <$>
              (list_to_map (residue_infos monlib) : gmap string ResidueInfo)
                !! resname) as Hrg.
  { rewrite index_chem_links_res_group, lookup_union, lookup_fmap.
    cbn [res_group LinkHunt_init]. rewrite lookup_empty.
    by rewrite (left_id None _). }
  assert (match_link_side (index_chem_links monlib LinkHunt_init).1 side
            resname = true ↔
          (comp side ≠ EmptyString ∧ comp side = resname)
          ∨ (comp side = EmptyString ∧ group side ≠ Null
             ∧ ∃ ri, (list_to_map (residue_infos monlib)
                        : gmap string ResidueInfo) !! resname = Some ri
                     ∧ residue_group ri = group side)) as Hiff.
  { rewrite match_link_side_true, Hrg. split.
    - intros [H|(He & Hg & Hl)]; [by left|]. right.
      apply fmap_Some in Hl as (ri & Hri & Hgr). split; [done|].
      split; [done|]. by exists ri.
    - intros [H|(He & Hg & ri & Hri & Hgr)]; [by left|]. right.
      split; [done|]. split; [done|]. rewrite Hri. cbn. by rewrite Hgr. }
  split; [exact Hiff|].
  intros He Hcase. apply not_true_is_false. intros Ht.
  apply Hiff in Ht as [[Hne _]|(_ & Hg & ri & Hri & Hgr)]; [done|].
  destruct Hcase as [Hnone|(ri' & Hri' & Hnull)]; [congruence|].
  rewrite Hri in Hri'. injection Hri' as <-. congruence.
Qed.

(** ** The values of [max_dist_per_atom] *)

Lemma index_link_starts_at lh err link k :
  max_dist_per_atom (index_link (lh, err) link).1 !! k
  = if decide (starts_at k link)
    then Some (match max_dist_per_atom lh !! k with
               | None => first_bond_value link
               | Some old =>
                   if Qltb old (first_bond_value link)
                   then first_bond_value link else old
               end)
    else max_dist_per_atom lh !! k.
Proof.
  pose proof (index_link_retained_case lh err link) as Hret.
  pose proof (index_link_skipped_case lh err link) as Hskip.
  destruct (decide (retained link)) as [Hr|Hr].
  - destruct (Hret Hr) as (b & bs & Eb & ->).
    rewrite retain_link_max_dist_per_atom, emplace_max_lookup.
    rewrite (first_bond_value_cons _ _ _ Eb).
    assert (first_bond_id1 link = Some (atom (id1 b))) as Hid
      by (unfold first_bond_id1; by rewrite Eb).
    destruct (decide (atom (id1 b) = k)) as [<-|Hne].
    + rewrite decide_True by done. done.
    + rewrite decide_False; [done|]. intros [_ Hk]. congruence.
  - rewrite (Hskip Hr). rewrite decide_False; [done|]. by intros [? _].
Qed.

Lemma fold_index_link_values ls lh err k :
  let vals := (entry_values (max_dist_per_atom lh !! k)
               ++ map first_bond_value (filter (starts_at k) ls))%list in
  match max_dist_per_atom (fold_left index_link ls (lh, err)).1 !! k with
  | None => vals = []
  | Some v => In v vals ∧ Forall (λ x, (x <= v)%Q) vals
  end.
Proof.
  revert lh err. induction ls as [|link ls IH]; intros lh err; cbv zeta.
  - cbn. destruct (max_dist_per_atom lh !! k) as [v|]; [|done]. cbn.
    split; [by left|]. constructor; [lra | constructor].
  - cbn [fold_left]. pose proof (index_link_starts_at lh err link k) as Hstep.
    destruct (index_link (lh, err) link) as [lh1 err1]. cbn [fst] in Hstep.
    specialize (IH lh1 err1). cbv zeta in IH. rewrite Hstep in IH.
    rewrite filter_cons.
    destruct (max_dist_per_atom (fold_left index_link ls (lh1, err1)).1 !! k)
      as [v|].
    + destruct IH as [Hin Hall].
      destruct (decide (starts_at k link)) as [Hs|Hs]; [|done].
      cbn [entry_values app] in Hin, Hall.
      apply Forall_cons in Hall as [Hx Hrest]. cbn [map].
      destruct (max_dist_per_atom lh !! k) as [old|]; cbn [entry_values app].
      * destruct (Qltb old (first_bond_value link)) eqn:E.
        -- apply Qltb_lt in E. split.
           ++ destruct Hin as [<-|Hin]; [right; by left | right; by right].
           ++ constructor; [lra|]. by constructor.
        -- apply Qltb_le in E. split.
           ++ destruct Hin as [<-|Hin]; [by left | right; by right].
           ++ constructor; [done|]. constructor; [lra | done].
      * split; [done|]. by constructor.
    + destruct (decide (starts_at k link)) as [Hs|Hs]; [|done].
      cbn in IH. done.
Qed.

(** X6. The value of [max_dist_per_atom] for an atom name after
    [index_chem_links]: the largest of the value it had before the call,
    if it had one, and of the first-bond lengths of the retained rules of
    the dictionary whose first bond starts at that name ([id1.atom]); the
    name has no entry when neither exists. A rule whose first bond only
    ends at the name ([id2.atom]) has no part in the value. *)
Theorem max_dist_per_atom_value (monlib : MonLib) (lh0 : LinkHunt)
  (k : string) :
  let lh := (index_chem_links monlib lh0).1 in
  let vals := (entry_values (max_dist_per_atom lh0 !! k)
               ++ map first_bond_value
                      (filter (starts_at k) (map snd (monlib_links monlib))))%list in
  match max_dist_per_atom lh !! k with
  | None => vals = []
  | Some v => In v vals ∧ Forall (λ x, (x <= v)%Q) vals
  end.
Proof.
  cbv zeta.
  destruct (index_chem_links_fields monlib lh0) as (_ & _ & -> & _).
  apply fold_index_link_values.
Qed.

Lemma first_bond_value_indexed ls lh err link k :
  link ∈ ls → starts_at k link →
  ∃ v, max_dist_per_atom (fold_left index_link ls (lh, err)).1 !! k = Some v
       ∧ (first_bond_value link <= v)%Q.
Proof.
  intros Hin Hs.
  pose proof (fold_index_link_values ls lh err k) as H. cbv zeta in H.
  assert (first_bond_value link
          ∈ map first_bond_value (filter (starts_at k) ls)) as Hv.
  { apply list_elem_of_fmap. exists link. split; [done|].
    by apply list_elem_of_filter. }
  destruct (max_dist_per_atom (fold_left index_link ls (lh, err)).1 !! k)
    as [v|].
  - exists v. split; [done|]. destruct H as [_ Hall].
    rewrite Forall_forall in Hall. apply Hall.
    apply elem_of_app. by right.
  - apply app_eq_nil in H as [_ H]. rewrite H in Hv. by apply elem_of_nil in Hv.
Qed.

Lemma fold_index_link_le_global ls lh err k v :
  (∀ k' v', max_dist_per_atom lh !! k' = Some v' →
            (v' <= global_max_dist lh)%Q) →
  max_dist_per_atom (fold_left index_link ls (lh, err)).1 !! k = Some v →
  (v <= global_max_dist (fold_left index_link ls (lh, err)).1)%Q.
Proof.
  intros Hinv Hv.
  pose proof (fold_index_link_values ls lh err k) as H. cbv zeta in H.
  rewrite Hv in H. destruct H as [Hin _].
  destruct (fold_index_link_global_max_dist ls lh err) as [_ Hall].
  cbv zeta in Hall. apply Forall_cons in Hall as [Hg Hall].
  rewrite Forall_forall in Hall.
  apply list_elem_of_In, elem_of_app in Hin as [Hin|Hin].
  - destruct (max_dist_per_atom lh !! k) as [old|] eqn:E;
      [|by apply elem_of_nil in Hin].
    apply list_elem_of_singleton in Hin as ->.
    specialize (Hinv k old E). lra.
  - apply Hall. apply list_elem_of_fmap in Hin as (link & -> & Hl).
    apply list_elem_of_filter in Hl as [[Hr _] Hl].
    apply list_elem_of_fmap. exists link. split; [done|].
    by apply list_elem_of_filter.
Qed.

(** X7. No search radius exceeds [global_max_dist]: if every value of
    [max_dist_per_atom] is at most [global_max_dist] before
    [index_chem_links], as in a fresh [LinkHunt], it is so after the call.
    Hence, with a bond margin of 1 or more, the radius that
    [find_possible_links] passes to [for_each] for a query atom is never
    larger than the cutoff the spatial index was built with. *)
Theorem query_radius_within_cutoff (monlib : MonLib) (lh0 : LinkHunt)
  (k : string) (v bond_margin : Q) :
  (∀ k' v', max_dist_per_atom lh0 !! k' = Some v' →
            (v' <= global_max_dist lh0)%Q) →
  let lh := (index_chem_links monlib lh0).1 in
  max_dist_per_atom lh !! k = Some v →
  (v <= global_max_dist lh)%Q
  ∧ ((1 <= bond_margin)%Q → (v <= index_cutoff lh bond_margin)%Q).
Proof.
  intros Hinv lh Hv. subst lh.
  destruct (index_chem_links_fields monlib lh0) as (Hg & _ & Hm & _).
  cbv zeta in Hg, Hm.
  assert (v <= global_max_dist (index_chem_links monlib lh0).1)%Q as Hle.
  { rewrite Hg. rewrite Hm in Hv.
    by apply (fold_index_link_le_global _ _ _ k). }
  split; [exact Hle|]. intros Hbm. unfold index_cutoff.
  destruct (std_max_spec 5.0
              (global_max_dist (index_chem_links monlib lh0).1 * bond_margin))
    as (_ & _ & H5 & Hprod).
  destruct (Qlt_le_dec (global_max_dist (index_chem_links monlib lh0).1) 0);
    [lra | nra].
Qed.

(** ** Indexing a dictionary a second time *)

Lemma fold_index_link_global_fixed ls lh err :
  Forall (λ link, (first_bond_value link <= global_max_dist lh)%Q)
         (filter retained ls) →
  global_max_dist (fold_left index_link ls (lh, err)).1 = global_max_dist lh.
Proof.
  revert lh err. induction ls as [|link ls IH]; intros lh err Hall; [done|].
  cbn [fold_left].
  pose proof (index_link_retained_case lh err link) as Hret.
  pose proof (index_link_skipped_case lh err link) as Hskip.
  destruct (index_link (lh, err) link) as [lh1 err1]. cbn [fst snd] in *.
  rewrite filter_cons in Hall.
  destruct (decide (retained link)) as [Hr|Hr].
  - apply Forall_cons in Hall as [Hv Hall].
    destruct (Hret Hr) as (b & bs & Eb & ->).
    rewrite (first_bond_value_cons _ _ _ Eb) in Hv.
    assert (global_max_dist (retain_link lh link b) = global_max_dist lh) as Hg.
    { cbn. apply Qgtb_le in Hv. by rewrite Hv. }
    rewrite IH; [done|]. by rewrite Hg.
  - rewrite (Hskip Hr). by apply IH.
Qed.

Lemma fold_index_link_map_fixed ls lh err :
  Forall (λ link, ∀ k, first_bond_id1 link = Some k →
            ∃ old, max_dist_per_atom lh !! k = Some old
                   ∧ (first_bond_value link <= old)%Q)
         (filter retained ls) →
  max_dist_per_atom (fold_left index_link ls (lh, err)).1
  = max_dist_per_atom lh.
Proof.
  revert lh err. induction ls as [|link ls IH]; intros lh err Hall; [done|].
  cbn [fold_left].
  pose proof (index_link_retained_case lh err link) as Hret.
  pose proof (index_link_skipped_case lh err link) as Hskip.
  destruct (index_link (lh, err) link) as [lh1 err1]. cbn [fst snd] in *.
  rewrite filter_cons in Hall.
  destruct (decide (retained link)) as [Hr|Hr].
  - apply Forall_cons in Hall as [Hv Hall].
    destruct (Hret Hr) as (b & bs & Eb & ->).
    assert (max_dist_per_atom (retain_link lh link b) = max_dist_per_atom lh)
      as Hm.
    { rewrite retain_link_max_dist_per_atom. unfold emplace_max.
      destruct (Hv (atom (id1 b))) as (old & -> & Hle).
      { unfold first_bond_id1. by rewrite Eb. }
      rewrite (first_bond_value_cons _ _ _ Eb) in Hle.
      apply Qltb_le in Hle. by rewrite Hle. }
    rewrite IH; [done|]. by rewrite Hm.
  - rewrite (Hskip Hr). by apply IH.
Qed.

(** X10. Calling [index_chem_links] a second time with the same dictionary
    changes neither [global_max_dist], nor [max_dist_per_atom], nor
    [res_group], but stores every retained rule in [links] once more,
    after those already there: nothing removes the entries of an earlier
    call, so that a rule then counts twice in [chem_link_count]. *)
Theorem index_chem_links_twice (monlib : MonLib) (lh0 : LinkHunt) :
  let values := map snd (monlib_links monlib) in
  let lh1 := (index_chem_links monlib lh0).1 in
  let lh2 := (index_chem_links monlib lh1).1 in
  global_max_dist lh2 = global_max_dist lh1
  ∧ max_dist_per_atom lh2 = max_dist_per_atom lh1
  ∧ res_group lh2 = res_group lh1
  ∧ links lh1 = (links lh0 ++ omap link_entry (filter retained values))%list
  ∧ links lh2 = (links lh1 ++ omap link_entry (filter retained values))%list
  ∧ ∀ key, length (equal_range (links lh2) key)
           = (length (equal_range (links lh1) key)
              + length (equal_range
                          (omap link_entry (filter retained values)) key))%nat.
Proof.
  cbv zeta.
  set (ls := map snd (monlib_links monlib)).
  set (lh1 := (index_chem_links monlib lh0).1).
  assert (∀ lh, links (index_chem_links monlib lh).1
                = (links lh ++ omap link_entry (filter retained ls))%list)
    as Hlinks.
  { intros lh. destruct (index_chem_links_fields monlib lh) as (_ & -> & _ & _).
    fold ls. by destruct (fold_index_link ls lh []) as (-> & _ & _). }
  destruct (index_chem_links_fields monlib lh0) as (Hg1 & _ & Hm1 & _).
  destruct (index_chem_links_fields monlib lh1) as (Hg2 & _ & Hm2 & _).
  cbv zeta in Hg1, Hm1, Hg2, Hm2. fold ls lh1 in Hg1, Hm1, Hg2, Hm2.
  split; [|split; [|split; [|split; [|split]]]].
  - rewrite Hg2. apply fold_index_link_global_fixed. rewrite Hg1.
    destruct (fold_index_link_global_max_dist ls lh0 []) as [_ Hall].
    cbv zeta in Hall. apply Forall_cons in Hall as [_ Hall].
    by rewrite Forall_fmap in Hall.
  - rewrite Hm2. apply fold_index_link_map_fixed. rewrite Hm1.
    apply Forall_forall. intros link [Hr Hin]%list_elem_of_filter k Hk.
    by apply (first_bond_value_indexed ls lh0 [] link k).
  - rewrite (index_chem_links_res_group monlib lh1).
    unfold lh1. rewrite (index_chem_links_res_group monlib lh0).
    rewrite <- (assoc_L (∪)). f_equal. apply (idemp_L (∪)).
  - apply Hlinks.
  - apply Hlinks.
  - intros key. rewrite Hlinks. unfold equal_range.
    by rewrite filter_app, map_app, length_app.
Qed.

(** ** [find_connection_by_cra] *)

Lemma connects_sym model c1 c2 c :
  connects model c1 c2 c = connects model c2 c1 c.
Proof.
  unfold connects.
  rewrite (andb_comm (atom_matches model c2 (conn_atom0 c))),
    (andb_comm (atom_matches model c2 (conn_atom1 c))).
  apply orb_comm.
Qed.

Lemma find_connection_from_connects i cs model c1 c2 :
  find_connection_from i cs model c1 c2
  = match cs with
    | [] => None
    | c :: cs' =>
        if connects model c1 c2 c then Some i
        else find_connection_from (S i) cs' model c1 c2
    end.
Proof. by destruct cs. Qed.

Lemma find_connection_from_sym i cs model c1 c2 :
  find_connection_from i cs model c1 c2
  = find_connection_from i cs model c2 c1.
Proof.
  revert i. induction cs as [|c cs IH]; intros i; [done|].
  rewrite !(find_connection_from_connects i (c :: cs)).
  by rewrite IH, connects_sym.
Qed.

Lemma find_connection_from_first i cs model c1 c2 :
  match find_connection_from i cs model c1 c2 with
  | Some j =>
      ∃ k c, j = (i + k)%nat ∧ cs !! k = Some c
             ∧ connects model c1 c2 c = true
             ∧ ∀ k' c', (k' < k)%nat → cs !! k' = Some c' →
                        connects model c1 c2 c' = false
  | None => ∀ c, c ∈ cs → connects model c1 c2 c = false
  end.
Proof.
  revert i. induction cs as [|c cs IH]; intros i.
  - cbn. intros c Hc. by apply elem_of_nil in Hc.
  - rewrite find_connection_from_connects.
    destruct (connects model c1 c2 c) eqn:E.
    + exists 0%nat, c. split; [lia|]. split; [done|]. split; [done|]. lia.
    + specialize (IH (S i)).
      destruct (find_connection_from (S i) cs model c1 c2) as [j|].
      * destruct IH as (k & c' & -> & Hk & Hc & Hbefore).
        exists (S k), c'. split; [lia|]. split; [done|]. split; [done|].
        intros [|k'] c'' Hlt Hl.
        -- cbn in Hl. by injection Hl as <-.
        -- apply (Hbefore k'); [lia | done].
      * intros c' [->|Hin]%elem_of_cons; [done | by apply IH].
Qed.

(** X11. [find_connection_by_cra] returns the first connection of the
    model that joins the two atoms, in either order, and the null pointer
    when no connection does; the result is the same when the two atoms are
    given in the other order. *)
Theorem find_connection_by_cra_first (model : Model) (c1 c2 : CRA) :
  find_connection_by_cra model c1 c2 = find_connection_by_cra model c2 c1
  ∧ match find_connection_by_cra model c1 c2 with
    | Some i =>
        ∃ c, connections model !! i = Some c
             ∧ connects model c1 c2 c = true
             ∧ ∀ j c', (j < i)%nat → connections model !! j = Some c' →
                       connects model c1 c2 c' = false
    | None => ∀ c, c ∈ connections model → connects model c1 c2 c = false
    end.
Proof.
  split; [apply find_connection_from_sym|].
  unfold find_connection_by_cra.
  pose proof (find_connection_from_first 0 (connections model) model c1 c2)
    as H.
  destruct (find_connection_from 0 (connections model) model c1 c2) as [i|];
    [|done].
  destruct H as (k & c & -> & Hk & Hc & Hbefore). by exists c.
Qed.

(** ** What every record holds *)

Lemma query_atom_resolves model n_ch chain n_res res n_atom atm :
  chains model !! n_ch = Some chain → residues chain !! n_res = Some res →
  atoms res !! n_atom = Some atm →
  cra_residue_of model (mkCRA n_ch n_res n_atom) = Some res
  ∧ cra_atom_of model (mkCRA n_ch n_res n_atom) = Some atm.
Proof.
  intros Hc Hr Ha. unfold cra_atom_of, cra_residue_of. cbn.
  by rewrite Hc, Hr.
Qed.

Lemma link_order_Some lh link bond res atm cres order1 :
  link_order lh link bond res atm cres = Some order1 →
  if order1
  then atom (id1 bond) = name atm
       ∧ match_link_side lh (side1 link) (res_name res) = true
       ∧ match_link_side lh (side2 link) (res_name cres) = true
  else atom (id2 bond) = name atm
       ∧ match_link_side lh (side2 link) (res_name res) = true
       ∧ match_link_side lh (side1 link) (res_name cres) = true.
Proof.
  unfold link_order.
  destruct (String.eqb (atom (id1 bond)) (name atm)
            && match_link_side lh (side1 link) (res_name res)
            && match_link_side lh (side2 link) (res_name cres)) eqn:E1.
  - intros [= <-]. apply andb_true_iff in E1 as [E1 ?].
    apply andb_true_iff in E1 as [E1 ?]. apply String.eqb_eq in E1. done.
  - destruct (String.eqb (atom (id2 bond)) (name atm)
              && match_link_side lh (side2 link) (res_name res)
              && match_link_side lh (side1 link) (res_name cres)) eqn:E2;
      [|done].
    intros [= <-]. apply andb_true_iff in E2 as [E2 ?].
    apply andb_true_iff in E2 as [E2 ?]. apply String.eqb_eq in E2. done.
Qed.

Lemma equal_range_elem_of l key link :
  link ∈ equal_range l key → link ∈ map snd l.
Proof.
  unfold equal_range. intros (e & -> & He)%list_elem_of_fmap.
  apply list_elem_of_filter in He as [_ He].
  apply list_elem_of_fmap. by exists e.
Qed.

Lemma equal_range_length l key : (length (equal_range l key) ≤ length l)%nat.
Proof. unfold equal_range. rewrite length_map. apply length_filter. Qed.

(** X12. Every record that [find_possible_links] returns names two atoms
    of the first model, and its [conn] is what [find_connection_by_cra]
    finds for them. [chem_link] is null exactly when [chem_link_count] is
    0; otherwise the rule is one of those stored in [links] and the count
    is at least 1 and at most the number of stored rules. In a record
    without a rule, [cra1] is the candidate and [cra2] the query atom, so
    that [cra1] is never before [cra2] in the order of the model. *)
Theorem record_invariants lh st bm rm results r :
  find_possible_links lh st bm rm = inr results → r ∈ results →
  ∃ model c1 c2 a1 a2,
    models st !! 0%nat = Some model
    ∧ cra1 r = Some c1 ∧ cra2 r = Some c2
    ∧ cra_atom_of model c1 = Some a1 ∧ cra_atom_of model c2 = Some a2
    ∧ conn r = find_connection_by_cra model c1 c2
    ∧ (chem_link r = None ↔ chem_link_count r = 0%Z)
    ∧ (∀ link, chem_link r = Some link →
         link ∈ map snd (links lh)
         ∧ (1 <= chem_link_count r <= Z.of_nat (length (links lh)))%Z)
    ∧ (chem_link r = None → CRA_ltb c1 c2 = false).
Proof.
  intros Hf Hin. apply find_possible_links_inr in Hf as (model & Hm & ->).
  apply list_elem_of_fmap in Hin as (r0 & -> & Hin).
  apply scan_elem_of in Hin
    as (n_ch & chain & n_res & res & n_atom & atm & md & m & d
        & Hc & Hr & Ha & _ & _ & Hv).
  destruct (query_atom_resolves _ _ _ _ _ _ _ Hc Hr Ha) as [_ Hq].
  apply visit_Some in Hv as (_ & Ht & _ & cres & catm & _ & Hcatm & Hcase).
  rewrite reported_twice_lex in Ht. cbv zeta in Hcase.
  destruct Hcase as [(link & o & Hlast & Ho & ->)|(Hnil & _ & ->)].
  - remember (filter (accepted lh bm res atm cres catm d)
                (equal_range (links lh)
                   (lexicographic_str (name atm) (name catm)))) as acc
      eqn:Hacc.
    assert (link ∈ acc) as Hl.
    { apply last_Some in Hlast as [l' ->]. apply elem_of_app. right. left. }
    assert (1 ≤ length acc)%nat as Hpos
      by (destruct acc; [by apply elem_of_nil in Hl | cbn; lia]).
    assert (length acc ≤ length (links lh))%nat as Hle.
    { rewrite Hacc. etrans; [apply length_filter | apply equal_range_length]. }
    assert (link ∈ map snd (links lh)) as Hstored.
    { rewrite Hacc in Hl. apply list_elem_of_filter in Hl as [_ Hl].
      by apply equal_range_elem_of in Hl. }
    destruct o.
    + exists model, (mkCRA n_ch n_res n_atom), (to_cra m), atm, catm.
      cbn. do 6 (split; [done|]). split; [split; [done | lia]|].
      split; [|done]. intros link' [= <-]. split; [done | lia].
    + exists model, (to_cra m), (mkCRA n_ch n_res n_atom), catm, atm.
      cbn. do 6 (split; [done|]). split; [split; [done | lia]|].
      split; [|done]. intros link' [= <-]. split; [done | lia].
  - exists model, (to_cra m), (mkCRA n_ch n_res n_atom), catm, atm.
    cbn. do 6 (split; [done|]). split; [done|]. split; [|done].
    intros link' Hl. discriminate Hl.
Qed.

(** X13. In a record with a rule, the two atoms are in the order of the
    sides of the rule: the residue of [cra1] matches [side1] and the
    residue of [cra2] matches [side2], and the query atom is named as the
    endpoint of the first bond on its side: [cra1] is named [id1.atom], or
    [cra2] is named [id2.atom]. The distance is within the length of that
    bond times the margin. *)
Theorem dictionary_record_sides lh st bm rm results r link :
  find_possible_links lh st bm rm = inr results → r ∈ results →
  chem_link r = Some link →
  ∃ model c1 c2 res1 res2 a1 a2 bond bs,
    models st !! 0%nat = Some model
    ∧ cra1 r = Some c1 ∧ cra2 r = Some c2
    ∧ cra_residue_of model c1 = Some res1 ∧ cra_atom_of model c1 = Some a1
    ∧ cra_residue_of model c2 = Some res2 ∧ cra_atom_of model c2 = Some a2
    ∧ bonds (rt link) = bond :: bs
    ∧ match_link_side lh (side1 link) (res_name res1) = true
    ∧ match_link_side lh (side2 link) (res_name res2) = true
    ∧ (name a1 = atom (id1 bond) ∨ name a2 = atom (id2 bond)).
Proof.
  intros Hf Hin Hlink. apply find_possible_links_inr in Hf as (model & Hm & ->).
  apply list_elem_of_fmap in Hin as (r0 & -> & Hin).
  apply scan_elem_of in Hin
    as (n_ch & chain & n_res & res & n_atom & atm & md & m & d
        & Hc & Hr & Ha & _ & _ & Hv).
  destruct (query_atom_resolves _ _ _ _ _ _ _ Hc Hr Ha) as [Hqr Hqa].
  apply visit_Some in Hv as (_ & _ & _ & cres & catm & Hcres & Hcatm & Hcase).
  cbv zeta in Hcase.
  destruct Hcase as [(link' & o & _ & Ho & ->)|(_ & _ & ->)]; [|done].
  cbn in Hlink. injection Hlink as ->.
  apply accepted_order_Some in Ho as (bond & bs & Hb & _ & Ho & _).
  apply link_order_Some in Ho. destruct o.
  - destruct Ho as (Hn & Hs1 & Hs2).
    exists model, (mkCRA n_ch n_res n_atom), (to_cra m), res, cres, atm, catm,
      bond, bs.
    cbn. do 10 (split; [done|]). by left.
  - destruct Ho as (Hn & Hs2 & Hs1).
    exists model, (to_cra m), (mkCRA n_ch n_res n_atom), cres, res, catm, atm,
      bond, bs.
    cbn. do 10 (split; [done|]). by right.
Qed.

(** X14. The covalent radii are consulted only when no rule of the atom-name
    pair is accepted. For a candidate that passes the three rejections:
    when a rule is accepted a record with that rule is pushed, whatever the
    radii; when none is, a record is pushed exactly when the squared
    distance is at most the square of the sum of the two radii times
    [radius_margin], and it has no rule, the count 0, the candidate as
    [cra1] and the query atom as [cra2]. *)
Theorem heuristic_only_without_rule lh model bm rm n_ch n_res n_atom res atm
  m d cres catm :
  inside_residue n_ch n_res m = false →
  reported_twice n_ch n_res n_atom m = false →
  image_too_close n_ch n_res n_atom m d = false →
  cra_residue_of model (to_cra m) = Some cres →
  cra_atom_of model (to_cra m) = Some catm →
  let q := mkCRA n_ch n_res n_atom in
  let acc := filter (accepted lh bm res atm cres catm d)
               (equal_range (links lh)
                  (lexicographic_str (name atm) (name catm))) in
  let radii := (covalent_r (element atm) + covalent_r (element catm))%Q in
  (acc = [] →
   visit lh model bm rm n_ch n_res n_atom res atm m d
   = if Qle_bool d (sq (radii * rm))
     then Some (mkMatch None 0 (Some (to_cra m)) (Some q)
                        (Nat.eqb (image_idx m) 0) (fsqrt d) None)
     else None)
  ∧ (acc ≠ [] →
     ∃ r link, visit lh model bm rm n_ch n_res n_atom res atm m d = Some r
               ∧ chem_link r = Some link ∧ last acc = Some link).
Proof.
  intros H1 H2 H3 Hr Ha q acc radii.
  split.
  - intros Hnil. destruct (Qle_bool d (sq (radii * rm))) eqn:E.
    + apply visit_Some. do 3 (split; [done|]). exists cres, catm.
      do 2 (split; [done|]). cbv zeta. right. fold acc radii.
      split; [done|]. split; [|done]. unfold Qgtb. by rewrite E.
    + destruct (visit lh model bm rm n_ch n_res n_atom res atm m d) as [r|]
        eqn:Evisit; [|done].
      apply visit_Some in Evisit as (_ & _ & _ & cres' & catm' & Hr' & Ha' & Hcase).
      rewrite Hr in Hr'. rewrite Ha in Ha'.
      injection Hr' as <-. injection Ha' as <-.
      cbv zeta in Hcase. fold acc radii in Hcase.
      destruct Hcase as [(link & o & Hl & _)|(_ & Hg & _)].
      * rewrite Hnil in Hl. done.
      * unfold Qgtb in Hg. rewrite E in Hg. done.
  - intros Hne.
    destruct (last acc) as [link|] eqn:El;
      [|apply last_None in El; done].
    assert (link ∈ acc) as Hin.
    { apply last_Some in El as [l' ->]. apply elem_of_app. right. left. }
    apply list_elem_of_filter in Hin as [[o Ho] _].
    eexists _, link. split; [|split; [|done]].
    + apply visit_Some. do 3 (split; [done|]). exists cres, catm.
      do 2 (split; [done|]). cbv zeta. left. fold acc.
      exists link, o. split; [done|]. split; [done|]. reflexivity.
    + reflexivity.
Qed.

(** X15. Every pair that [find_possible_links] reports, with a rule or by
    covalent radii, has a query atom: one of the two atoms of the record,
    which the other one does not precede in the order of the model, and
    whose name has an entry in [max_dist_per_atom]. When the dictionary
    was indexed in a fresh [LinkHunt], that name is the first endpoint
    ([id1.atom]) of the first bond of a retained rule of the dictionary. *)
Theorem record_query_atom_indexed (monlib : MonLib) lh st bm rm results r :
  find_possible_links lh st bm rm = inr results → r ∈ results →
  ∃ model q c atm,
    models st !! 0%nat = Some model
    ∧ endpoints r q c ∧ CRA_ltb c q = false
    ∧ cra_atom_of model q = Some atm
    ∧ is_Some (max_dist_per_atom lh !! name atm)
    ∧ (lh = (index_chem_links monlib LinkHunt_init).1 →
       ∃ link, link ∈ map snd (monlib_links monlib)
               ∧ starts_at (name atm) link).
Proof.
  intros Hf Hin. apply find_possible_links_inr in Hf as (model & Hm & ->).
  apply list_elem_of_fmap in Hin as (r0 & -> & Hin).
  apply scan_elem_of in Hin
    as (n_ch & chain & n_res & res & n_atom & atm & md & m & d
        & Hc & Hr & Ha & Hmd & _ & Hv).
  destruct (query_atom_resolves _ _ _ _ _ _ _ Hc Hr Ha) as [_ Hq].
  apply visit_endpoints in Hv as (He & Hlt & _).
  exists model, (mkCRA n_ch n_res n_atom), (to_cra m), atm.
  do 4 (split; [done|]). split; [by eexists|].
  intros ->.
  assert (is_Some (max_dist_per_atom (index_chem_links monlib LinkHunt_init).1
                     !! name atm)) as Hk by (by eexists).
  apply max_dist_per_atom_keys in Hk as (link & Hl & Hret & Hid).
  exists link. done.
Qed.

(** X16. When no atom of the first model has a name with an entry in
    [max_dist_per_atom], [find_possible_links] returns no record, not even
    by covalent radii; so it is with a [LinkHunt] in which no dictionary
    was indexed. *)
Theorem no_indexed_name_no_record lh st bm rm model :
  models st !! 0%nat = Some model →
  (∀ q atm, cra_atom_of model q = Some atm →
            max_dist_per_atom lh !! name atm = None) →
  find_possible_links lh st bm rm = inr [].
Proof.
  intros Hm Hnone. apply find_possible_links_inr. exists model.
  split; [done|].
  assert (scan lh (build_index lh model (cell st) bm) model bm rm = []) as ->;
    [|done].
  apply elem_of_nil_inv. intros r Hin.
  apply scan_elem_of in Hin
    as (n_ch & chain & n_res & res & n_atom & atm & md & m & d
        & Hc & Hr & Ha & Hmd & _).
  destruct (query_atom_resolves _ _ _ _ _ _ _ Hc Hr Ha) as [_ Hq].
  rewrite (Hnone _ _ Hq) in Hmd. done.
Qed.

End LinkSearch.

(** ** The properties at concrete inputs *)

(** In [st_twofold] ZN lies on the two-fold axis; SG and its image by the
    rotation are both at 1.5 from it, and the scan pushes two records for
    the pair ZN, SG: one in the asymmetric unit and one with the image. *)
Lemma C1_counterexample :
  ∃ results,
    find_possible_links ex_sqrt ex_covalent_r ex_get_from ex_atom_matches
                        lh_zn st_twofold 1.2 1.3 = inr results
    ∧ length (filter (λ r, endpoints r cra_zn cra_sg) results) = 2%nat.
Proof. eexists. split; vm_compute; reflexivity. Qed.

Lemma C1_witness :
  ∃ results,
    find_possible_links ex_sqrt ex_covalent_r ex_get_from ex_atom_matches
                        lh_zn st_twofold 1.2 1.3 = inr results
    ∧ (length (filter (λ r, endpoints r cra_zn cra_sg) results) ≤ 2)%nat
    ∧ (length (filter (λ r, endpoints r cra_zn cra_sg ∧ same_asu r = true)
                      results) ≤ 1)%nat.
Proof.
  eexists. split; [vm_compute; reflexivity|].
  lazymatch goal with
  | |- (length (filter _ ?l) ≤ _)%nat ∧ _ =>
      destruct (C1_pair_reported_once_per_image ex_sqrt ex_covalent_r
                  ex_get_from ex_atom_matches lh_zn st_twofold 1.2 1.3 l
                  cra_zn cra_sg) as (_ & _ & H1 & H2 & _)
  end; [vm_compute; reflexivity|].
  split; [exact H1 | exact H2].
Defined.

(** With the margin -1 the rule ZN-CYS (bond length 2.3) is still accepted
    for ZN and SG at the distance 1.5, which is above 2.3 * -1. *)
Lemma C2_counterexample :
  ∃ results r bond,
    find_possible_links ex_sqrt ex_covalent_r ex_get_from ex_atom_matches
                        lh_zn st_p1 (-1) 1.3 = inr results
    ∧ r ∈ results
    ∧ chem_link r = Some link_ZN_CYS
    ∧ bonds (rt link_ZN_CYS) = [bond]
    ∧ bond_length r = sqrt (Q2R (squared_distance (pos at_zn) (pos at_sg)))
    ∧ ¬ (bond_length r <= Q2R (value bond * (-1)))%R.
Proof.
  eexists _, _, _. split; [vm_compute; reflexivity|].
  split; [left|]. split; [reflexivity|]. split; [reflexivity|].
  split; [vm_compute; reflexivity|].
  change (¬ (sqrt (Q2R 2.25) <= Q2R (-23 # 10))%R).
  pose proof (sqrt_pos (Q2R 2.25)) as Hpos.
  unfold Q2R at 2. cbn [Qnum Qden]. Lra.lra.
Qed.

(** In the model of ZN and CYS the search reports ZN with SG under the
    rule ZN-CYS, at the distance 1.5, and ZN with CB by covalent radii, at
    the distance whose square is 4.5: each length is the Euclidean
    distance of the two atoms, not negative and within its bound. *)
Lemma C2_witness :
  ∃ results,
    find_possible_links ex_sqrt ex_covalent_r ex_get_from ex_atom_matches
                        lh_zn st_p1 1.2 1.3 = inr results
    ∧ length results = 2%nat
    ∧ ∀ r, r ∈ results →
        ∃ q atm m catm,
          cra_atom_of model_zn q = Some atm
          ∧ cra_atom_of model_zn (to_cra m) = Some catm
          ∧ endpoints r q (to_cra m)
          ∧ bond_length r
            = sqrt (Q2R (squared_distance (pos atm) (mark_pos m)))
          ∧ (0 <= bond_length r)%R
          ∧ (∀ link, chem_link r = Some link →
               ∃ bond bs, bonds (rt link) = bond :: bs
                          ∧ (bond_length r <= Q2R (value bond * 1.2))%R)
          ∧ (chem_link r = None →
               (bond_length r
                <= Q2R ((ex_covalent_r (element atm)
                         + ex_covalent_r (element catm)) * 1.3))%R).
Proof.
  eexists. split; [vm_compute; reflexivity|]. split; [reflexivity|].
  intros r Hin.
  lazymatch goal with
  | Hin : r ∈ ?l |- _ =>
      destruct (C2_bond_length_bounds ex_sqrt ex_covalent_r ex_get_from
                  ex_atom_matches lh_zn st_p1 1.2 1.3 l r
                  ltac:(intros x; reflexivity) ltac:(vm_compute; reflexivity)
                  Hin)
        as (model & q & atm & m & catm & Hm & Hq & _ & Hc & He & H)
  end.
  cbn in Hm. injection Hm as <-.
  cbv zeta in H. destruct H as (Hlen & Hpos & _ & Hdict & Hheur).
  exists q, atm, m, catm.
  split; [exact Hq|]. split; [exact Hc|]. split; [exact He|].
  split; [exact Hlen|]. split; [exact Hpos|]. split.
  - intros link Hl. destruct (Hdict link Hl) as (bond & bs & Hb & _ & _ & Hle).
    exists bond, bs. split; [exact Hb|]. apply Hle.
    assert (link = link_ZN_CYS) as ->.
    { apply elem_of_cons in Hin as [->|Hin];
        [cbn in Hl; by injection Hl as <-|].
      apply elem_of_cons in Hin as [->|Hin]; [discriminate Hl|].
      by apply elem_of_nil in Hin. }
    cbn in Hb. injection Hb as <- <-. vm_compute. discriminate.
  - intros Hl. destruct (Hheur Hl) as (_ & _ & Hle). apply Hle.
    assert (∀ e, (0 <= ex_covalent_r e)%Q) as Hr.
    { intros e. unfold ex_covalent_r.
      destruct (e =? 30)%nat; [|destruct (e =? 16)%nat];
        vm_compute; discriminate. }
    pose proof (Hr (element atm)). pose proof (Hr (element catm)). nra.
Defined.

(** The query atom (0, 0, 0) and the mark of atom 1 of its residue, in the
    asymmetric unit: the first rejection fires although the mark is not
    the query atom. *)
Lemma C4_counterexample :
  inside_residue 0 0 mark_other_atom = true
  ∧ ¬ (image_idx mark_other_atom = 0%nat ∧ chain_idx mark_other_atom = 0%nat
       ∧ residue_idx mark_other_atom = 0%nat
       ∧ atom_idx mark_other_atom = 0%nat).
Proof. split; [reflexivity|]. intros (_ & _ & _ & H). discriminate H. Qed.

(** The image of ZN by a lattice translation, at the distance 2: none of
    the rejections fires, no rule is stored for ZN with ZN, and the pair is
    within covalent radii, so that a record of ZN with itself is pushed. *)
Lemma C5_witness :
  visit ex_sqrt ex_covalent_r ex_get_from lh_zn model_zn 1.2 1.3 0 0 0
        res_zn at_zn mark_zn_image 4
  = Some (mkMatch None 0 (Some cra_zn) (Some cra_zn) false (ex_sqrt 4) None).
Proof.
  assert (image_idx mark_zn_image ≠ 0%nat) as Hi by (cbn; lia).
  assert (0.8 <= sqrt (Q2R 4))%R as Hge.
  { assert (Q2R 4 = 2 * 2)%R as -> by (unfold Q2R; cbn; Lra.lra).
    rewrite sqrt_square; Lra.lra. }
  destruct (C5_own_image_too_close ex_sqrt ex_covalent_r ex_get_from
              lh_zn model_zn 1.2 1.3 0 0 0 res_zn at_zn mark_zn_image
              4 eq_refl Hi) as (_ & _ & H).
  destruct (H Hge) as (_ & _ & _ & Hv). apply Hv.
  exists res_zn, at_zn. split; [reflexivity|]. split; [reflexivity|].
  cbv zeta. right. split; [vm_compute; reflexivity|].
  split; [vm_compute; discriminate | reflexivity].
Defined.

(** With a lattice translation by 2, the image of ZN at the distance 2 is
    not rejected, and a record of ZN with itself is pushed. *)
Lemma own_image_can_be_matched :
  ∃ results r,
    find_possible_links ex_sqrt ex_covalent_r ex_get_from ex_atom_matches
                        lh_zn st_shift 1.2 1.3 = inr results
    ∧ r ∈ results
    ∧ cra1 r = Some cra_zn ∧ cra2 r = Some cra_zn ∧ same_asu r = false.
Proof.
  eexists _, _. split; [vm_compute; reflexivity|]. split; [left|]. done.
Qed.

Lemma C6_witness :
  try_link ex_get_from lh_three 1.2 cra_zn res_zn at_zn cra_sg res_cys at_sg
           2.25 Match_default link_ZN_CYS_chir = Match_default
  ↔ Exists (contradicted ex_get_from (chir_res1 res_zn res_cys true)
                         (chir_res2 res_zn res_cys true)
                         (chir_alt at_zn at_sg))
           (chirs (rt link_ZN_CYS_chir)).
Proof.
  assert (Qgtb 2.25 (sq (value bond_ZN_SG * 1.2)) = false) as Hd
    by (vm_compute; reflexivity).
  assert (link_order lh_three link_ZN_CYS_chir bond_ZN_SG res_zn at_zn res_cys
          = Some true) as Ho by (vm_compute; reflexivity).
  destruct (C6_chirality_gate ex_get_from lh_three 1.2 cra_zn res_zn
              at_zn cra_sg res_cys at_sg 2.25 Match_default
              link_ZN_CYS_chir bond_ZN_SG [] true eq_refl Hd Ho)
    as (_ & _ & _ & _ & _ & H).
  exact H.
Defined.

Lemma C7_witness :
  visit ex_sqrt ex_covalent_r ex_get_from lh_three model_zn 1.2 1.3 0 0 0
        res_zn at_zn mark_sg 2.25
  = Some (mkMatch (Some link_ZN_CYS) 2 (Some cra_zn) (Some cra_sg) true
                  (ex_sqrt 2.25) None).
Proof.
  assert (image_too_close 0 0 0 mark_sg 2.25 = false) as H3
    by (vm_compute; reflexivity).
  assert (last (filter (accepted ex_get_from lh_three 1.2 res_zn at_zn res_cys
                                 at_sg 2.25)
                       (equal_range (links lh_three)
                          (lexicographic_str (name at_zn) (name at_sg))))
          = Some link_ZN_CYS) as Hl by (vm_compute; reflexivity).
  assert (accepted_order ex_get_from lh_three 1.2 res_zn at_zn res_cys at_sg
                         2.25 link_ZN_CYS = Some true) as Ho
    by (vm_compute; reflexivity).
  pose proof (C7_last_accepted_rule_wins ex_sqrt ex_covalent_r ex_get_from
                lh_three model_zn 1.2 1.3 0 0 0 res_zn at_zn mark_sg 2.25
                res_cys at_sg link_ZN_CYS true eq_refl eq_refl H3 eq_refl
                eq_refl Hl Ho) as H.
  rewrite H. vm_compute. reflexivity.
Defined.

(** A fresh index of the one-rule dictionary has [global_max_dist = 2.34];
    with the margin 1.2 the product is 2.808, and the cutoff is 5. *)
Lemma C9_counterexample :
  ¬ (sc_cutoff (build_index lh_zn model_zn (mkUnitCell []) 1.2)
     == global_max_dist lh_zn * 1.2)%Q.
Proof. vm_compute. discriminate. Qed.

(** A structure without a model: the call throws. *)
Lemma C10_counterexample :
  find_possible_links ex_sqrt ex_covalent_r ex_get_from ex_atom_matches
                      lh_zn st_no_model 1.2 1.3 = inl out_of_range
  ∧ find_possible_links ex_sqrt ex_covalent_r ex_get_from ex_atom_matches
                        lh_zn st_no_model 1.2 1.3 ≠ inr [].
Proof. split; [reflexivity | discriminate]. Qed.


(** * gz.hpp: properties *)

Lemma split_line_app f : ((split_line f).1 ++ (split_line f).2)%list = f.
Proof.
  induction f as [|c f IH]; [done|]. cbn [split_line].
  destruct (is_newline c); [done|].
  destruct (split_line f) as [l r]. cbn in *. by rewrite IH.
Qed.

Lemma split_line_nonempty c f : (split_line (c :: f)).1 ≠ [].
Proof.
  cbn [split_line]. destruct (is_newline c); [done|].
  by destruct (split_line f).
Qed.

Lemma concat_lines_upto fuel f :
  (length f ≤ fuel)%nat → concat (lines_upto fuel f) = f.
Proof.
  revert f. induction fuel as [|fuel IH]; intros f Hl.
  - destruct f; [done | cbn in Hl; lia].
  - destruct f as [|c f]; [done|]. cbn [lines_upto concat].
    rewrite IH; [apply split_line_app|].
    pose proof (split_line_app (c :: f)) as Happ.
    pose proof (split_line_nonempty c f) as Hne.
    apply (f_equal length) in Happ. rewrite length_app in Happ.
    destruct ((split_line (c :: f)).1); [done|]. cbn in *. lia.
Qed.

(** The lines of a text put end to end are the text. *)
Lemma concat_lines f : concat (lines f) = f.
Proof. by apply concat_lines_upto. Qed.

Lemma gzgets_copy_split n f :
  gzgets_copy n f
  = (take n (split_line f).1,
     (drop n (split_line f).1 ++ (split_line f).2)%list).
Proof.
  revert f. induction n as [|n IH]; intros f.
  - rewrite take_0, drop_0, split_line_app. by destruct f.
  - destruct f as [|c f]; [done|]. cbn [gzgets_copy split_line].
    destruct (is_newline c); [cbn; by rewrite take_nil, drop_nil|].
    rewrite IH. by destruct (split_line f).
Qed.

Lemma strlen_no_zero l :
  Forall (λ c, is_zero_char c = false) l → strlen l = length l.
Proof.
  induction 1 as [|c l Hc _ IH]; [done|]. cbn. by rewrite Hc, IH.
Qed.

Lemma discard_rest_split f :
  Forall (λ c, is_zero_char c = false) f → discard_rest f = (split_line f).2.
Proof.
  induction 1 as [|c f Hc _ IH]; [done|]. cbn [discard_rest split_line].
  rewrite Hc. cbn [orb]. destruct (is_newline c); [done|].
  rewrite IH. by destruct (split_line f).
Qed.

Lemma split_line_drop n f :
  (n < length (split_line f).1)%nat →
  (split_line (drop n f)).2 = (split_line f).2.
Proof.
  revert f. induction n as [|n IH]; intros f; [done|].
  destruct f as [|c f]; [cbn; lia|]. cbn [split_line drop].
  destruct (is_newline c); [cbn; lia|].
  specialize (IH f). destruct (split_line f) as [l r]. cbn in *.
  intros H. apply IH. lia.
Qed.

(** In the first line an end of line is the last character. *)
Lemma split_line_newline_last f i c :
  (split_line f).1 !! i = Some c → is_newline c = true →
  S i = length (split_line f).1.
Proof.
  revert i. induction f as [|c0 f IH]; intros i; [done|].
  cbn [split_line]. destruct (is_newline c0) eqn:E0.
  - destruct i as [|i]; [done|]. cbn. intros H. by destruct i.
  - specialize (IH (pred i)). destruct (split_line f) as [l r]. cbn in *.
    destruct i as [|i]; cbn.
    + intros [= ->] Hc. congruence.
    + intros Hl Hc. f_equal. by apply IH.
Qed.

(** A first line that does not end with an end of line is the whole text. *)
Lemma split_line_unterminated f :
  is_newline (nth (length (split_line f).1 - 1) (split_line f).1 Byte.x00)
  = false →
  (split_line f).2 = [].
Proof.
  induction f as [|c f IH]; [done|]. cbn [split_line].
  destruct (is_newline c) eqn:E; [cbn; congruence|].
  destruct (split_line f) as [l r]. cbn in *.
  destruct l as [|c1 l]; cbn in *.
  - intros _. by apply IH.
  - rewrite Nat.sub_0_r in *. intros H. apply IH. exact H.
Qed.

(** One call on a text without zero characters: the line is the first line
    of the text cut to [size - 1] characters, and the stream is left after
    the whole first line. *)
Lemma copy_line_from_stream_line (size : Z) (f : list Byte.byte) :
  Forall (λ c, is_zero_char c = false) f → (2 <= size)%Z →
  let l := take (Z.to_nat (size - 1)) (split_line f).1 in
  copy_line_from_stream size f
  = (length l, match f with [] => None | _ :: _ => Some l end,
     (split_line f).2).
Proof.
  intros Hz Hs l. unfold copy_line_from_stream, gzgets.
  destruct (size <? 1)%Z eqn:E1; [apply Z.ltb_lt in E1; lia|].
  rewrite gzgets_copy_split. fold l.
  set (n := Z.to_nat (size - 1)) in *. assert (1 ≤ n)%nat as Hn by lia.
  destruct f as [|c f]; [by destruct n|].
  pose proof (split_line_nonempty c f) as Hne.
  pose proof (split_line_app (c :: f)) as Happ.
  set (ln := (split_line (c :: f)).1) in *.
  set (rest := (split_line (c :: f)).2) in *.
  assert (Forall (λ c, is_zero_char c = false) l) as Hzl.
  { rewrite <- Happ in Hz. apply Forall_app in Hz as [Hz _].
    by apply Forall_take. }
  assert (l ≠ []) as Hl.
  { unfold l. destruct ln; [done|]. by destruct n; [lia|]. }
  assert (1 ≤ length l)%nat as Hpos by (destruct l; [done | cbn; lia]).
  destruct l as [|c1 l1] eqn:El; [done|]. rewrite <- El in *.
  rewrite (strlen_no_zero l Hzl).
  assert ((0 <? length l)%nat = true) as -> by (apply Nat.ltb_lt; lia).
  cbn [andb]. f_equal.
  destruct (decide (n < length ln)%nat) as [Hlt|Hge].
  - assert (length l = n) as Hlen by (unfold l; rewrite length_take; lia).
    assert (is_newline (nth (length l - 1) l Byte.x00) = false) as ->.
    { destruct (is_newline _) eqn:E; [exfalso | done].
      destruct (lookup_lt_is_Some_2 l (length l - 1)) as [x Hx]; [lia|].
      rewrite (nth_lookup_Some _ _ Byte.x00 _ Hx) in E.
      rewrite Hlen in Hx. unfold l in Hx.
      rewrite lookup_take_lt in Hx by lia.
      pose proof (split_line_newline_last (c :: f) _ _ Hx E) as H.
      fold ln in H. lia. }
    cbn [negb].
    assert ((drop n ln ++ rest)%list = drop n (c :: f)) as ->.
    { rewrite <- Happ. rewrite drop_app_le by lia. done. }
    rewrite discard_rest_split by (by apply Forall_drop).
    apply split_line_drop. exact Hlt.
  - assert (l = ln) as Hl' by (unfold l; apply take_ge; lia).
    rewrite drop_ge by lia. cbn [app].
    destruct (is_newline (nth (length l - 1) l Byte.x00)) eqn:E; [done|].
    cbn [negb]. rewrite Hl' in E.
    pose proof (split_line_unterminated (c :: f) E) as Hr. fold rest in Hr.
    by rewrite Hr.
Qed.

Lemma split_line_terminated body c rest :
  Forall (λ x, is_newline x = false) body → is_newline c = true →
  split_line (body ++ c :: rest) = ((body ++ [c])%list, rest).
Proof.
  intros Hb Hc. induction Hb as [|x body Hx _ IH]; cbn [app split_line].
  - by rewrite Hc.
  - by rewrite Hx, IH.
Qed.

Lemma split_line_last_line body :
  Forall (λ x, is_newline x = false) body → split_line body = (body, []).
Proof.
  induction 1 as [|x body Hx _ IH]; [done|]. cbn [split_line].
  by rewrite Hx, IH.
Qed.

Lemma discard_rest_suffix f : ∃ k, discard_rest f = drop k f.
Proof.
  induction f as [|c f [k IH]]; [by exists 0%nat|]. cbn [discard_rest].
  destruct (_ || _); [by exists 1%nat | by exists (S k)].
Qed.

Lemma strlen_le l : (strlen l ≤ length l)%nat.
Proof.
  induction l as [|c l IH]; [done|]. cbn.
  destruct (is_zero_char c); lia.
Qed.

Lemma lines_upto_fuel fuel1 fuel2 f :
  (length f ≤ fuel1)%nat → (length f ≤ fuel2)%nat →
  lines_upto fuel1 f = lines_upto fuel2 f.
Proof.
  revert fuel2 f. induction fuel1 as [|fuel1 IH]; intros fuel2 f H1 H2.
  - destruct f; [by destruct fuel2 | cbn in H1; lia].
  - destruct f as [|c f]; [by destruct fuel2|].
    destruct fuel2 as [|fuel2]; [cbn in H2; lia|]. cbn [lines_upto].
    f_equal.
    pose proof (split_line_app (c :: f)) as Happ.
    pose proof (split_line_nonempty c f) as Hne.
    apply (f_equal length) in Happ. rewrite length_app in Happ.
    assert (length (split_line (c :: f)).2 ≤ length f)%nat as Hr
      by (destruct ((split_line (c :: f)).1); [done | cbn in *; lia]).
    cbn in H1, H2. apply IH; lia.
Qed.

Lemma lines_upto_enough fuel f :
  (length f ≤ fuel)%nat → lines_upto fuel f = lines f.
Proof. intros H. by apply lines_upto_fuel. Qed.

(** X1. One call of [copy_line_from_stream] on a stream without zero
    characters, with a buffer of at least 2 characters: an empty stream
    gives 0 and leaves the buffer untouched; otherwise the buffer gets the
    first line (with its end of line) cut to [size - 1] characters, the
    length of that is returned, and the stream is left after the end of
    that line, however long the line is: the rest of a line that does not
    fit is discarded. *)
Theorem copy_line_from_stream_first_line (size : Z) (f : list Byte.byte) :
  Forall (λ c, is_zero_char c = false) f → (2 <= size)%Z →
  let n := Z.to_nat (size - 1) in
  (f = [] → copy_line_from_stream size f = (0%nat, None, []))
  ∧ (∀ body c rest,
       f = (body ++ c :: rest)%list →
       Forall (λ x, is_newline x = false) body → is_newline c = true →
       copy_line_from_stream size f
       = (length (take n (body ++ [c])), Some (take n (body ++ [c])), rest))
  ∧ (∀ c body,
       f = c :: body → Forall (λ x, is_newline x = false) f →
       copy_line_from_stream size f
       = (length (take n f), Some (take n f), [])).
Proof.
  intros Hz Hs n. pose proof (copy_line_from_stream_line size f Hz Hs) as H.
  cbv zeta in H. fold n in H. split; [|split].
  - intros ->. rewrite H. cbn. by rewrite take_nil.
  - intros body c rest -> Hb Hc. rewrite H.
    rewrite (split_line_terminated body c rest Hb Hc). cbn [fst snd].
    by destruct body.
  - intros c body -> Hb. rewrite H.
    by rewrite (split_line_last_line (c :: body) Hb).
Qed.

(** X2. For every stream and every buffer size, [copy_line_from_stream]
    consumes a prefix of the stream, puts fewer than [size] characters in
    the buffer, all of them from the front of the stream, and returns no
    more than it put there; with [size <= 1] it reads nothing and returns
    0; and it leaves the buffer untouched only then or at the end of the
    stream. *)
Theorem copy_line_from_stream_bounds (size : Z) (f : list Byte.byte) :
  let r := copy_line_from_stream size f in
  (∃ consumed, f = (consumed ++ r.2)%list)
  ∧ ((size <= 1)%Z → r = (0%nat, None, f))
  ∧ (∀ l, r.1.2 = Some l →
       (r.1.1 ≤ length l)%nat ∧ (1 ≤ length l)%nat
       ∧ (Z.of_nat (length l) <= size - 1)%Z ∧ l `prefix_of` f)
  ∧ (r.1.2 = None → r.1.1 = 0%nat ∧ ((size <= 1)%Z ∨ f = [])).
Proof.
  cbv zeta. unfold copy_line_from_stream, gzgets.
  destruct (size <? 1)%Z eqn:E1.
  { apply Z.ltb_lt in E1. cbn. split; [by exists []|].
    split; [done|]. split; [done|]. intros _. split; [done|]. left. lia. }
  apply Z.ltb_ge in E1. rewrite gzgets_copy_split.
  set (n := Z.to_nat (size - 1)).
  pose proof (split_line_app f) as Happ.
  assert ((split_line f).1 = [] → f = []) as Hnil.
  { destruct f as [|c f]; [done|]. intros H.
    by destruct (split_line_nonempty c f). }
  destruct (split_line f) as [ln rest]. cbn [fst snd] in *.
  pose proof (take_drop n ln) as Htd.
  destruct (take n ln) as [|c0 l0] eqn:El.
  - cbn [app] in Htd. cbn [fst snd].
    assert ((drop n ln ++ rest)%list = f) as Hf by (by rewrite Htd).
    rewrite Hf. split; [by exists []|]. split; [done|]. split; [done|].
    intros _. split; [done|].
    destruct (decide (size <= 1)%Z) as [|Hs]; [by left | right].
    assert (1 ≤ n)%nat as Hn by lia.
    destruct ln as [|x ln']; [by apply Hnil|].
    destruct n; [lia | done].
  - rewrite <- El in *.
    assert (length (take n ln) ≤ n)%nat as Hlen by (rewrite length_take; lia).
    assert (1 ≤ length (take n ln))%nat as Hpos by (rewrite El; cbn; lia).
    cbn [fst snd]. split; [|split; [|split]].
    + destruct (_ && _).
      * destruct (discard_rest_suffix (drop n ln ++ rest)) as [k ->].
        exists (take n ln ++ take k (drop n ln ++ rest))%list.
        by rewrite <- app_assoc, take_drop, app_assoc, Htd.
      * exists (take n ln). by rewrite app_assoc, Htd.
    + intros Hs. assert (n = 0%nat) as Hn by lia. lia.
    + intros l [= <-]. split; [apply strlen_le|]. split; [exact Hpos|].
      split; [lia|].
      exists (drop n ln ++ rest)%list. by rewrite app_assoc, Htd.
    + done.
Qed.

Lemma read_lines_upto fuel size f :
  Forall (λ c, is_zero_char c = false) f → (2 <= size)%Z →
  read_lines fuel size f
  = map (take (Z.to_nat (size - 1))) (lines_upto fuel f).
Proof.
  intros Hz Hs. revert f Hz. induction fuel as [|fuel IH]; intros f Hz; [done|].
  cbn [read_lines]. rewrite (copy_line_from_stream_line size f Hz Hs).
  destruct f as [|c f]; [cbn; by rewrite take_nil|].
  pose proof (split_line_nonempty c f) as Hne.
  pose proof (split_line_app (c :: f)) as Happ.
  cbn [lines_upto map].
  set (ln := (split_line (c :: f)).1) in *.
  set (rest := (split_line (c :: f)).2) in *.
  assert (1 ≤ length (take (Z.to_nat (size - 1)) ln))%nat as Hpos.
  { rewrite length_take. destruct ln; [done | cbn; lia]. }
  destruct (length (take (Z.to_nat (size - 1)) ln)) eqn:E; [lia|].
  f_equal. apply IH. rewrite <- Happ in Hz.
  by apply Forall_app in Hz as [_ Hz].
Qed.

(** X3. A reader that calls [copy_line_from_stream] until it returns 0, on
    a text without zero characters and with a buffer of at least 2
    characters, gets the lines of the text in order, each cut to
    [size - 1] characters: no line is skipped, split in two or merged with
    the next one because it is too long. *)
Theorem read_lines_are_the_lines (fuel : nat) (size : Z) (f : list Byte.byte) :
  Forall (λ c, is_zero_char c = false) f → (2 <= size)%Z →
  (length f ≤ fuel)%nat →
  read_lines fuel size f = map (take (Z.to_nat (size - 1))) (lines f)
  ∧ concat (lines f) = f.
Proof.
  intros Hz Hs Hl. split; [|apply concat_lines].
  rewrite read_lines_upto by done. by rewrite lines_upto_enough.
Qed.

Lemma byte_val_range b : (0 <= byte_val b < 256)%Z.
Proof. unfold byte_val. pose proof (Byte.to_N_bounded b). lia. Qed.

Lemma lor_shift_add (a b k : Z) :
  (0 <= k)%Z → (0 <= b < 2 ^ k)%Z → Z.lor (a * 2 ^ k) b = (a * 2 ^ k + b)%Z.
Proof.
  intros Hk Hb.
  assert (Z.land (a * 2 ^ k) b = 0%Z) as Hland.
  { apply Z.bits_inj'. intros n Hn. rewrite Z.land_spec, Z.bits_0.
    destruct (Z.lt_ge_cases n k) as [Hlt|Hge].
    - by rewrite Z.mul_pow2_bits_low.
    - rewrite <- (Z.mod_small b (2 ^ k)) by lia.
      rewrite Z.mod_pow2_bits_high by lia. apply andb_false_r. }
  rewrite <- Z.lxor_lor by exact Hland.
  symmetry. by apply Z.add_nocarry_lxor.
Qed.

Lemma to_int_small z : (- 2 ^ 31 <= z < 2 ^ 31)%Z → to_int z = z.
Proof. intros H. unfold to_int. rewrite Z.mod_small; lia. Qed.

Lemma orig_size_of_value b0 b1 b2 b3 :
  orig_size_of b0 b1 b2 b3
  = if (byte_val b3 <? 128)%Z then le32 b0 b1 b2 b3
    else (le32 b0 b1 b2 b3 + (2 ^ 64 - 2 ^ 32))%Z.
Proof.
  unfold orig_size_of, le32.
  pose proof (byte_val_range b0). pose proof (byte_val_range b1).
  pose proof (byte_val_range b2). pose proof (byte_val_range b3).
  rewrite !Z.shiftl_mul_pow2 by lia.
  rewrite (to_int_small (byte_val b2 * 2 ^ 16)) by lia.
  rewrite (to_int_small (byte_val b1 * 2 ^ 8)) by lia.
  assert (∀ t3 : Z,
    (- 128 <= t3 < 128)%Z →
    Z.lor (Z.lor (Z.lor (t3 * 2 ^ 24) (byte_val b2 * 2 ^ 16))
                 (byte_val b1 * 2 ^ 8)) (byte_val b0)
    = (byte_val b0 + 2 ^ 8 * byte_val b1 + 2 ^ 16 * byte_val b2
       + 2 ^ 24 * t3)%Z) as Hlor.
  { intros t3 Ht. rewrite (lor_shift_add t3) by lia.
    replace (t3 * 2 ^ 24 + byte_val b2 * 2 ^ 16)%Z
      with ((t3 * 2 ^ 8 + byte_val b2) * 2 ^ 16)%Z by ring.
    rewrite lor_shift_add by lia.
    replace ((t3 * 2 ^ 8 + byte_val b2) * 2 ^ 16 + byte_val b1 * 2 ^ 8)%Z
      with (((t3 * 2 ^ 8 + byte_val b2) * 2 ^ 8 + byte_val b1) * 2 ^ 8)%Z
      by ring.
    rewrite lor_shift_add by lia. ring. }
  destruct (byte_val b3 <? 128)%Z eqn:E.
  - apply Z.ltb_lt in E. rewrite to_int_small by lia.
    rewrite Hlor by lia. unfold to_size_t. rewrite Z.mod_small; lia.
  - apply Z.ltb_ge in E.
    assert (to_int (byte_val b3 * 2 ^ 24) = ((byte_val b3 - 256) * 2 ^ 24)%Z)
      as ->.
    { unfold to_int.
      replace (byte_val b3 * 2 ^ 24 + 2 ^ 31)%Z
        with (((byte_val b3 - 256) * 2 ^ 24 + 2 ^ 31) + 1 * 2 ^ 32)%Z by ring.
      rewrite Z.mod_add by lia. rewrite Z.mod_small; lia. }
    rewrite Hlor by lia. unfold to_size_t.
    replace (byte_val b0 + 2 ^ 8 * byte_val b1 + 2 ^ 16 * byte_val b2
             + 2 ^ 24 * (byte_val b3 - 256))%Z
      with ((byte_val b0 + 2 ^ 8 * byte_val b1 + 2 ^ 16 * byte_val b2
             + 2 ^ 24 * byte_val b3 + (2 ^ 64 - 2 ^ 32)) + (-1) * 2 ^ 64)%Z
      by ring.
    rewrite Z.mod_add by lia. rewrite Z.mod_small; lia.
Qed.

Lemma estimate_uncompressed_size_last4 pre b0 b1 b2 b3 :
  pre ≠ [] → (Z.of_nat (length (pre ++ [b0; b1; b2; b3])) < 2 ^ 60)%Z →
  let size := Z.of_nat (length (pre ++ [b0; b1; b2; b3])) in
  estimate_uncompressed_size (pre ++ [b0; b1; b2; b3])
  = if (orig_size_of b0 b1 b2 b3 <? size)%Z
       || (10 * size <? orig_size_of b0 b1 b2 b3)%Z
    then inl size_undetermined else inr (orig_size_of b0 b1 b2 b3).
Proof.
  intros Hpre Hlen size. unfold estimate_uncompressed_size. fold size.
  assert (size = Z.of_nat (length pre) + 4)%Z as Hsize
    by (unfold size; rewrite length_app; cbn; lia).
  assert (1 ≤ length pre)%nat by (destruct pre; [done | cbn; lia]).
  destruct (size <? 4)%Z eqn:E1; [apply Z.ltb_lt in E1; lia|].
  destruct (size - 4 <=? 0)%Z eqn:E2; [apply Z.leb_le in E2; lia|].
  replace (Z.to_nat (size - 4)) with (length pre) by lia.
  rewrite drop_app_length.
  replace (size - 4 + 4)%Z with size by lia.
  unfold to_size_t. rewrite (Z.mod_small size) by lia.
  rewrite (Z.mod_small (10 * size)) by lia. reflexivity.
Qed.

(** X4. On a file of more than four bytes (and less than 2^60), the size
    that [estimate_uncompressed_size] returns is the last four bytes read
    as a little-endian number, and it is returned exactly when the top bit
    of the last byte is clear and the number lies between the size of the
    file and ten times that size; otherwise the call fails with "Cannot
    determine uncompressed size". *)
Theorem estimate_uncompressed_size_little_endian
  (pre : list Byte.byte) (b0 b1 b2 b3 : Byte.byte) :
  pre ≠ [] →
  (Z.of_nat (length (pre ++ [b0; b1; b2; b3])) < 2 ^ 60)%Z →
  let size := Z.of_nat (length (pre ++ [b0; b1; b2; b3])) in
  let n := le32 b0 b1 b2 b3 in
  estimate_uncompressed_size (pre ++ [b0; b1; b2; b3])
  = if (byte_val b3 <? 128)%Z && (size <=? n)%Z && (n <=? 10 * size)%Z
    then inr n else inl size_undetermined.
Proof.
  intros Hpre Hlen size n.
  rewrite (estimate_uncompressed_size_last4 pre b0 b1 b2 b3 Hpre Hlen).
  fold size. rewrite orig_size_of_value. fold n.
  assert (5 <= size)%Z as Hsize.
  { unfold size. rewrite length_app. destruct pre; [done | cbn; lia]. }
  assert (0 <= n < 2 ^ 32)%Z as Hn.
  { unfold n, le32. pose proof (byte_val_range b0).
    pose proof (byte_val_range b1). pose proof (byte_val_range b2).
    pose proof (byte_val_range b3). lia. }
  destruct (byte_val b3 <? 128)%Z eqn:E3; cbn [andb].
  - rewrite (Z.leb_antisym n size), (Z.leb_antisym (10 * size) n).
    destruct (n <? size)%Z, (10 * size <? n)%Z; reflexivity.
  - assert ((10 * size <? n + (2 ^ 64 - 2 ^ 32))%Z = true) as ->
      by (apply Z.ltb_lt; lia).
    by rewrite orb_true_r.
Qed.

(** X5. Which failure [estimate_uncompressed_size] raises, and what it can
    return: on a file shorter than four bytes [fseek] fails; on a file of
    exactly four bytes the position is 0 and the call fails on [ftell]; on
    a longer file the four bytes are always read. A size that is returned
    is at least the size of the file, which then has five bytes or more,
    at most ten times that size, and below 2^31: a gzip file whose stored
    size has the top bit set is never accepted. *)
Theorem estimate_uncompressed_size_range (file : list Byte.byte) :
  (Z.of_nat (length file) < 2 ^ 60)%Z →
  let size := Z.of_nat (length file) in
  (estimate_uncompressed_size file = inl fseek_failed ↔ (size < 4)%Z)
  ∧ (estimate_uncompressed_size file = inl ftell_failed ↔ size = 4%Z)
  ∧ estimate_uncompressed_size file ≠ inl fread_failed
  ∧ ∀ n, estimate_uncompressed_size file = inr n →
         (5 <= size)%Z ∧ (size <= n <= 10 * size)%Z ∧ (n < 2 ^ 31)%Z.
Proof.
  intros Hlen size.
  destruct (Z.lt_ge_cases size 5) as [Hshort|Hlong].
  - unfold estimate_uncompressed_size. fold size.
    destruct (size <? 4)%Z eqn:E1.
    + apply Z.ltb_lt in E1. repeat split; try done; try lia.
    + apply Z.ltb_ge in E1.
      assert ((size - 4 <=? 0)%Z = true) as -> by (apply Z.leb_le; lia).
      repeat split; try done; try lia.
  - assert (∃ pre b0 b1 b2 b3, file = (pre ++ [b0; b1; b2; b3])%list ∧ pre ≠ [])
      as (pre & b0 & b1 & b2 & b3 & -> & Hpre).
    { exists (take (length file - 4) file).
      pose proof (take_drop (length file - 4) file) as Htd.
      assert (length (drop (length file - 4) file) = 4%nat) as Hd
        by (rewrite length_drop; unfold size in Hlong; lia).
      destruct (drop (length file - 4) file) as [|b0 [|b1 [|b2 [|b3 [|? ?]]]]];
        try done.
      exists b0, b1, b2, b3. split; [done|].
      intros Hnil. apply (f_equal length) in Hnil.
      rewrite length_take in Hnil. unfold size in Hlong. cbn in Hnil. lia. }
    rewrite (estimate_uncompressed_size_last4 pre b0 b1 b2 b3 Hpre Hlen).
    fold size. rewrite orig_size_of_value.
    assert (0 <= le32 b0 b1 b2 b3 < 2 ^ 32)%Z as Hn.
    { unfold le32. pose proof (byte_val_range b0).
      pose proof (byte_val_range b1). pose proof (byte_val_range b2).
      pose proof (byte_val_range b3). lia. }
    assert ((byte_val b3 <? 128)%Z = true → (le32 b0 b1 b2 b3 < 2 ^ 31)%Z)
      as Htop.
    { intros E%Z.ltb_lt. unfold le32. pose proof (byte_val_range b0).
      pose proof (byte_val_range b1). pose proof (byte_val_range b2). lia. }
    assert (∀ X : gz_failure + Z,
      X = inl size_undetermined
      ∨ (∃ v, X = inr v ∧ (size <= v <= 10 * size)%Z ∧ (v < 2 ^ 31)%Z) →
      (X = inl fseek_failed ↔ (size < 4)%Z)
      ∧ (X = inl ftell_failed ↔ size = 4%Z)
      ∧ X ≠ inl fread_failed
      ∧ ∀ n, X = inr n →
             (5 <= size)%Z ∧ (size <= n <= 10 * size)%Z ∧ (n < 2 ^ 31)%Z)
      as Hcases.
    { intros X [->|(v & -> & Hv1 & Hv2)].
      - split; [split; [done | lia]|]. split; [split; [done | lia]|].
        split; [done|]. intros m Hm. discriminate Hm.
      - split; [split; [done | lia]|]. split; [split; [done | lia]|].
        split; [done|]. intros m Hm. injection Hm as <-. done. }
    apply Hcases.
    destruct (byte_val b3 <? 128)%Z eqn:E3.
    + destruct (le32 b0 b1 b2 b3 <? size)%Z eqn:E1;
        destruct (10 * size <? le32 b0 b1 b2 b3)%Z eqn:E2; cbn [orb];
        try by left.
      right. eexists. split; [done|]. apply Z.ltb_ge in E1, E2.
      specialize (Htop eq_refl). lia.
    + assert ((10 * size <? le32 b0 b1 b2 b3 + (2 ^ 64 - 2 ^ 32))%Z = true)
        as -> by (apply Z.ltb_lt; lia).
      rewrite orb_true_r. by left.
Qed.

(** ** The further properties at concrete inputs *)

(** With a buffer of 3 characters, the first line of the text "ab", "cd" is
    read as "ab": its end of line does not fit and is discarded, and the
    stream is left at "cd". *)
Lemma copy_line_from_stream_first_line_witness :
  copy_line_from_stream 3 ex_text
  = (2%nat, Some [Byte.x61; Byte.x62], [Byte.x63; Byte.x64]).
Proof.
  assert (Forall (λ c, is_zero_char c = false) ex_text) as Hz
    by (repeat constructor).
  assert (2 <= 3)%Z as Hsize by lia.
  destruct (copy_line_from_stream_first_line 3 ex_text Hz Hsize)
    as (_ & H & _).
  apply (H [Byte.x61; Byte.x62] Byte.x0a [Byte.x63; Byte.x64]);
    [reflexivity | repeat constructor | reflexivity].
Defined.

Lemma read_lines_are_the_lines_witness :
  read_lines 5 3 ex_text = [[Byte.x61; Byte.x62]; [Byte.x63; Byte.x64]].
Proof.
  assert (Forall (λ c, is_zero_char c = false) ex_text) as Hz
    by (repeat constructor).
  assert (2 <= 3)%Z as Hsize by lia.
  assert (length ex_text ≤ 5)%nat as Hfuel by (cbn; lia).
  destruct (read_lines_are_the_lines 5 3 ex_text Hz Hsize Hfuel) as [H _].
  exact H.
Defined.

(** A gzip file of 10 bytes that ends with 20 stored little-endian: the
    estimate is 20. *)
Lemma estimate_uncompressed_size_little_endian_witness :
  estimate_uncompressed_size
    (ex_gz_head ++ [Byte.x14; Byte.x00; Byte.x00; Byte.x00])%list = inr 20%Z.
Proof.
  assert (ex_gz_head ≠ []) as Hne by done.
  assert (Z.of_nat (length (ex_gz_head
                              ++ [Byte.x14; Byte.x00; Byte.x00; Byte.x00])%list)
          < 2 ^ 60)%Z as Hlen by (cbn; lia).
  exact (estimate_uncompressed_size_little_endian ex_gz_head Byte.x14 Byte.x00
           Byte.x00 Byte.x00 Hne Hlen).
Defined.

Lemma estimate_uncompressed_size_range_witness :
  (5 <= 10)%Z ∧ (10 <= 20 <= 10 * 10)%Z ∧ (20 < 2 ^ 31)%Z.
Proof.
  assert (Z.of_nat (length (ex_gz_head
                              ++ [Byte.x14; Byte.x00; Byte.x00; Byte.x00])%list)
          < 2 ^ 60)%Z as Hlen by (cbn; lia).
  destruct (estimate_uncompressed_size_range
              (ex_gz_head ++ [Byte.x14; Byte.x00; Byte.x00; Byte.x00])%list
              Hlen) as (_ & _ & _ & H).
  exact (H 20%Z eq_refl).
Defined.

(** The radius for ZN after indexing the one-rule dictionary is 2.3: below
    [global_max_dist] and below the cutoff of the index. *)
Lemma query_radius_within_cutoff_witness :
  (2.3 <= global_max_dist lh_zn)%Q
  ∧ ((1 <= 1.2)%Q → (2.3 <= index_cutoff lh_zn 1.2)%Q).
Proof.
  assert (∀ (k' : string) (v' : Q),
            max_dist_per_atom LinkHunt_init !! k' = Some v' →
            (v' <= global_max_dist LinkHunt_init)%Q) as Hinv.
  { intros k' v' H. cbn in H. rewrite lookup_empty in H. discriminate H. }
  assert (max_dist_per_atom (index_chem_links monlib_zn LinkHunt_init).1
            !! "ZN" = Some 2.3%Q) as Hv by (vm_compute; reflexivity).
  exact (query_radius_within_cutoff monlib_zn LinkHunt_init "ZN" 2.3 1.2
           Hinv Hv).
Defined.

Lemma record_invariants_witness :
  ∃ results r,
    find_possible_links ex_sqrt ex_covalent_r ex_get_from ex_atom_matches
                        lh_zn st_p1 1.2 1.3 = inr results
    ∧ r ∈ results
    ∧ ∃ model c1 c2,
        cra1 r = Some c1 ∧ cra2 r = Some c2
        ∧ conn r = find_connection_by_cra ex_atom_matches model c1 c2
        ∧ (chem_link r = None ↔ chem_link_count r = 0%Z).
Proof.
  eexists _, _. split; [vm_compute; reflexivity|]. split; [left|].
  lazymatch goal with
  | |- ∃ model c1 c2, cra1 ?r = _ ∧ _ =>
      destruct (record_invariants ex_sqrt ex_covalent_r ex_get_from
                  ex_atom_matches lh_zn st_p1 1.2 1.3 _ r
                  ltac:(vm_compute; reflexivity) ltac:(left))
        as (model & c1 & c2 & a1 & a2 & _ & H1 & H2 & _ & _ & Hc & Hn & _)
  end.
  exists model, c1, c2. split; [exact H1|]. split; [exact H2|].
  split; [exact Hc | exact Hn].
Defined.

Lemma dictionary_record_sides_witness :
  ∃ results r,
    find_possible_links ex_sqrt ex_covalent_r ex_get_from ex_atom_matches
                        lh_zn st_p1 1.2 1.3 = inr results
    ∧ r ∈ results
    ∧ ∃ model c1 c2 res1 res2,
        cra1 r = Some c1 ∧ cra2 r = Some c2
        ∧ cra_residue_of model c1 = Some res1
        ∧ cra_residue_of model c2 = Some res2
        ∧ match_link_side lh_zn (side1 link_ZN_CYS) (res_name res1) = true
        ∧ match_link_side lh_zn (side2 link_ZN_CYS) (res_name res2) = true.
Proof.
  eexists _, _. split; [vm_compute; reflexivity|]. split; [left|].
  lazymatch goal with
  | |- ∃ model c1 c2 res1 res2, cra1 ?r = _ ∧ _ =>
      destruct (dictionary_record_sides ex_sqrt ex_covalent_r ex_get_from
                  ex_atom_matches lh_zn st_p1 1.2 1.3 _ r link_ZN_CYS
                  ltac:(vm_compute; reflexivity) ltac:(left) eq_refl)
        as (model & c1 & c2 & res1 & res2 & a1 & a2 & bond & bs & _ & H1 & H2
            & Hr1 & _ & Hr2 & _ & _ & Hs1 & Hs2 & _)
  end.
  exists model, c1, c2, res1, res2.
  split; [exact H1|]. split; [exact H2|]. split; [exact Hr1|].
  split; [exact Hr2|]. split; [exact Hs1 | exact Hs2].
Defined.

(** Without a rule in [links], ZN and SG at the distance 1.5 are within
    the sum of their covalent radii times 1.3, and a record without a rule
    is pushed, SG first. *)
Lemma heuristic_only_without_rule_witness :
  visit ex_sqrt ex_covalent_r ex_get_from LinkHunt_init model_zn 1.2 1.3 0 0 0
        res_zn at_zn mark_sg 2.25
  = Some (mkMatch None 0 (Some cra_sg) (Some cra_zn) true (ex_sqrt 2.25) None).
Proof.
  assert (image_too_close 0 0 0 mark_sg 2.25 = false) as H3
    by (vm_compute; reflexivity).
  destruct (heuristic_only_without_rule ex_sqrt ex_covalent_r ex_get_from
              LinkHunt_init model_zn 1.2 1.3 0 0 0 res_zn at_zn mark_sg 2.25
              res_cys at_sg eq_refl eq_refl H3 eq_refl eq_refl) as [H _].
  rewrite (H eq_refl). vm_compute. reflexivity.
Defined.

Lemma record_query_atom_indexed_witness :
  ∃ results r,
    find_possible_links ex_sqrt ex_covalent_r ex_get_from ex_atom_matches
                        lh_zn st_p1 1.2 1.3 = inr results
    ∧ r ∈ results
    ∧ ∃ q c atm,
        endpoints r q c ∧ CRA_ltb c q = false
        ∧ is_Some (max_dist_per_atom lh_zn !! name atm)
        ∧ ∃ link, link ∈ map snd (monlib_links monlib_zn)
                  ∧ starts_at (name atm) link.
Proof.
  eexists _, _. split; [vm_compute; reflexivity|]. split; [left|].
  lazymatch goal with
  | |- ∃ q c atm, endpoints ?r _ _ ∧ _ =>
      destruct (record_query_atom_indexed ex_sqrt ex_covalent_r ex_get_from
                  ex_atom_matches monlib_zn lh_zn st_p1 1.2 1.3 _ r
                  ltac:(vm_compute; reflexivity) ltac:(left))
        as (model & q & c & atm & _ & He & Hlt & _ & Hk & Hl)
  end.
  exists q, c, atm. split; [exact He|]. split; [exact Hlt|].
  split; [exact Hk | exact (Hl eq_refl)].
Defined.

(** A [LinkHunt] in which no dictionary was indexed finds nothing in the
    model of ZN and CYS, although ZN and SG are within covalent radii. *)
Lemma no_indexed_name_no_record_witness :
  find_possible_links ex_sqrt ex_covalent_r ex_get_from ex_atom_matches
                      LinkHunt_init st_p1 1.2 1.3 = inr [].
Proof.
  assert (∀ (q : CRA) (atm : Atom),
            cra_atom_of model_zn q = Some atm →
            max_dist_per_atom LinkHunt_init !! name atm = None) as Hnone.
  { intros q atm _. apply lookup_empty. }
  exact (no_indexed_name_no_record ex_sqrt ex_covalent_r ex_get_from
           ex_atom_matches LinkHunt_init st_p1 1.2 1.3 model_zn eq_refl Hnone).
Defined.
